(** * lab5: harmonic signal, Gaussian noise and moving-average filter

    A shallow embedding of [src/lab5/lab5.py] (class [HarmonicVisualizer]) and
    of the few numpy / matplotlib operations it calls.

    Arithmetic model.  numpy works on IEEE binary64 numbers.  Samples are
    modelled here as exact real numbers extended with one special value,
    [NaN], which is what [np.sqrt] returns on a negative argument and which
    every arithmetic operation propagates.  Rounding, infinities and the sign
    of zero are not modelled: equalities proved below are equalities of the
    exact values the program computes.

    Effects.  An exception is the left summand of [result]; the state of the
    process-wide generator of [np.random] is threaded through every draw.
    Of matplotlib only what the program reads back is kept: the value and the
    initial value of each slider, and the samples and the visibility flag of
    each line. *)

From Stdlib Require Import String Reals Lra Lia List ZArith Bool Arith.
Import ListNotations.

Open Scope R_scope.

(** ** Scalars and arrays *)

Inductive scalar : Type :=
| Fin (x : R)
| NaN.

Definition ndarray : Type := list scalar.

Definition sadd (a b : scalar) : scalar :=
  match a, b with
  | Fin x, Fin y => Fin (x + y)
  | _, _ => NaN
  end.

Definition smul (a b : scalar) : scalar :=
  match a, b with
  | Fin x, Fin y => Fin (x * y)
  | _, _ => NaN
  end.

(** A zero divisor (inf or nan in IEEE arithmetic) is collapsed to [NaN]; the
    program never divides a non-empty array by zero. *)
Definition sdiv (a b : scalar) : scalar :=
  match a, b with
  | Fin x, Fin y => if Req_dec_T y 0 then NaN else Fin (x / y)
  | _, _ => NaN
  end.

Definition ssin (a : scalar) : scalar :=
  match a with
  | Fin x => Fin (sin x)
  | NaN => NaN
  end.

(** [np.sqrt]: nan (with a RuntimeWarning, not an exception) below zero. *)
Definition ssqrt (a : scalar) : scalar :=
  match a with
  | Fin x => if Rlt_dec x 0 then NaN else Fin (sqrt x)
  | NaN => NaN
  end.

Definition is_nan (a : scalar) : bool :=
  match a with
  | Fin _ => false
  | NaN => true
  end.

(** The sign test of numpy's generators; it is only consulted on values that
    are not nan. *)
Definition signbit (a : scalar) : bool :=
  match a with
  | Fin x => if Rlt_dec x 0 then true else false
  | NaN => false
  end.

(** The sum of a sequence of products, as the dot product inside
    [np.convolve] accumulates it from zero. *)
Definition ssum (l : ndarray) : scalar := fold_right sadd (Fin 0) l.

(** ** Exceptions *)

Inductive exn : Type :=
| ValueError (msg : string).

Definition result (A : Type) : Type := (exn + A)%type.

Definition ret {A : Type} (a : A) : result A := inr a.

Definition bind {A B : Type} (m : result A) (k : A -> result B) : result B :=
  match m with
  | inl e => inl e
  | inr a => k a
  end.

Notation "x <- m ;; k" := (bind m (fun x => k))
  (at level 61, m at next level, right associativity).

Definition raises {A : Type} (m : result A) : Prop := exists e, m = inl e.

(** ** numpy *)

Module np.

(** [np.linspace(start, stop, num)] with [endpoint=True]: [arange(num)]
    scaled by [step = (stop - start) / (num - 1)] and shifted by [start],
    the last entry then overwritten with [stop]. *)
Definition linspace (start stop : R) (num : nat) : ndarray :=
  let div := (num - 1)%nat in
  let delta := stop - start in
  let y := seq 0 num in
  let y :=
    if (0 <? div)%nat then
      let step := delta / INR div in
      if Req_dec_T step 0
      then map (fun i => Fin (INR i / INR div * delta + start)) y
      else map (fun i => Fin (INR i * step + start)) y
    else map (fun i => Fin (INR i * delta + start)) y in
  if (1 <? num)%nat then removelast y ++ [Fin stop] else y.

(** [np.ones(n)] for a Python int [n]. *)
Definition ones (n : Z) : result ndarray :=
  if (n <? 0)%Z then inl (ValueError "negative dimensions are not allowed")
  else ret (repeat (Fin 1) (Z.to_nat n)).

(** [arr / n]: element-wise true division of an array by a Python int. *)
Definition div_int (arr : ndarray) (n : Z) : ndarray :=
  map (fun x => sdiv x (Fin (IZR n))) arr.

(** [a + b] for two arrays of the same length. *)
Fixpoint add (a b : ndarray) : ndarray :=
  match a, b with
  | x :: a', y :: b' => sadd x y :: add a' b'
  | _, _ => []
  end.

(** Entry [j] of the full discrete convolution: the sum of
    [a[m] * v[j - m]] over the indices [m] where both factors exist. *)
Definition conv_at (a v : ndarray) (j : nat) : scalar :=
  ssum (map (fun m => smul (nth m a NaN) (nth (j - m) v NaN))
            (filter (fun m => (m <=? j)%nat && (j - m <? length v)%nat)
                    (seq 0 (length a)))).

(** [np.convolve(a, v, mode='same')]: the operands are swapped when [v] is
    the longer one, empty operands are rejected, and the result is the
    slice of the full convolution that starts at [(len(v) - 1) // 2] and
    has the length of the longer operand. *)
Definition convolve_same (a v : ndarray) : result ndarray :=
  let '(a, v) := if (length a <? length v)%nat then (v, a) else (a, v) in
  match a, v with
  | [], _ => inl (ValueError "a cannot be empty")
  | _, [] => inl (ValueError "v cannot be empty")
  | _, _ =>
      ret (map (fun i => conv_at a v (i + (length v - 1) / 2)%nat)
               (seq 0 (length a)))
  end.

End np.

(** ** matplotlib objects the visualizer holds *)

(** A [Slider]: its current value, the value it was created with (to which
    [reset] returns) and its range. *)
Record Slider : Type := mkSlider {
  val : R;
  valinit : R;
  valmin : R;
  valmax : R
}.

Definition with_val (v : R) (sl : Slider) : Slider :=
  mkSlider v (valinit sl) (valmin sl) (valmax sl).

(** A plotted line: the samples it shows and whether it is drawn. *)
Record Line2D : Type := mkLine {
  ydata : ndarray;
  visible : bool
}.

Definition set_ydata (y : ndarray) (l : Line2D) : Line2D := mkLine y (visible l).
Definition get_visible (l : Line2D) : bool := visible l.
Definition set_visible (b : bool) (l : Line2D) : Line2D := mkLine (ydata l) b.

(** The keys of the dict [self.sliders], in insertion order. *)
Inductive slider_key : Type :=
| k_amplitude
| k_frequency
| k_noise_mean
| k_covariance.

Definition slider_key_eqb (a b : slider_key) : bool :=
  match a, b with
  | k_amplitude, k_amplitude => true
  | k_frequency, k_frequency => true
  | k_noise_mean, k_noise_mean => true
  | k_covariance, k_covariance => true
  | _, _ => false
  end.

Definition slider_keys : list slider_key :=
  [k_amplitude; k_frequency; k_noise_mean; k_covariance].

Record slider_dict : Type := mkSliders {
  sl_amplitude : Slider;
  sl_frequency : Slider;
  sl_noise_mean : Slider;
  sl_covariance : Slider
}.

Definition get_slider (k : slider_key) (d : slider_dict) : Slider :=
  match k with
  | k_amplitude => sl_amplitude d
  | k_frequency => sl_frequency d
  | k_noise_mean => sl_noise_mean d
  | k_covariance => sl_covariance d
  end.

Definition put_slider (k : slider_key) (sl : Slider) (d : slider_dict) : slider_dict :=
  match k with
  | k_amplitude => mkSliders sl (sl_frequency d) (sl_noise_mean d) (sl_covariance d)
  | k_frequency => mkSliders (sl_amplitude d) sl (sl_noise_mean d) (sl_covariance d)
  | k_noise_mean => mkSliders (sl_amplitude d) (sl_frequency d) sl (sl_covariance d)
  | k_covariance => mkSliders (sl_amplitude d) (sl_frequency d) (sl_noise_mean d) sl
  end.

(** A deterministic stand-in for the generator, used to run the model on
    concrete inputs: the state is a counter and draw number [n] is [n]. *)
Definition counter_gauss (n : nat) : R * nat := (INR n, S n).

(** ** The visualizer *)

Section Visualizer.

(** The process-wide pseudorandom generator behind [np.random]: a state and
    the function that draws one standard-normal value from it. *)
Variable rng : Type.
Variable gauss : rng -> R * rng.

Fixpoint gauss_draws (n : nat) (g : rng) : list R * rng :=
  match n with
  | O => ([], g)
  | S k =>
      let '(z, g1) := gauss g in
      let '(zs, g2) := gauss_draws k g1 in
      (z :: zs, g2)
  end.

(** The samples [np.random.normal] makes of the standard-normal draws [zs]:
    [loc + scale * z] for each. *)
Definition normal_samples (loc : R) (scale : scalar) (zs : list R) : ndarray :=
  map (fun z => sadd (Fin loc) (smul scale (Fin z))) zs.

(** [np.random.normal(loc, scale, size)]: a scale that is not nan and has
    its sign bit set is rejected before anything is drawn; otherwise [size]
    values are drawn and the generator is left in its new state. *)
Definition random_normal (loc : R) (scale : scalar) (size : nat) (g : rng)
  : result (ndarray * rng) :=
  if negb (is_nan scale) && signbit scale then inl (ValueError "scale < 0")
  else
    let '(zs, g') := gauss_draws size g in
    ret (normal_samples loc scale zs, g').

(** The attributes of a [HarmonicVisualizer], with the generator state of
    [np.random] carried along. *)
Record state : Type := mkState {
  amplitude : R;
  frequency : R;
  phase : R;
  noise_mean : R;
  noise_covariance : R;
  filter_window : Z;
  t : ndarray;
  pure_signal : ndarray;
  noise : ndarray;
  noisy_signal : ndarray;
  filtered_signal : ndarray;
  pure_line : Line2D;
  noisy_line : Line2D;
  filtered_line : Line2D;
  sliders : slider_dict;
  np_random : rng
}.

(** Attribute assignments. *)

Definition set_params (a f m c : R) (s : state) : state :=
  mkState a f (phase s) m c (filter_window s) (t s)
    (pure_signal s) (noise s) (noisy_signal s) (filtered_signal s)
    (pure_line s) (noisy_line s) (filtered_line s) (sliders s) (np_random s).

Definition set_pure_signal (v : ndarray) (s : state) : state :=
  mkState (amplitude s) (frequency s) (phase s) (noise_mean s)
    (noise_covariance s) (filter_window s) (t s)
    v (noise s) (noisy_signal s) (filtered_signal s)
    (pure_line s) (noisy_line s) (filtered_line s) (sliders s) (np_random s).

Definition set_noise (v : ndarray) (g : rng) (s : state) : state :=
  mkState (amplitude s) (frequency s) (phase s) (noise_mean s)
    (noise_covariance s) (filter_window s) (t s)
    (pure_signal s) v (noisy_signal s) (filtered_signal s)
    (pure_line s) (noisy_line s) (filtered_line s) (sliders s) g.

Definition set_noisy_signal (v : ndarray) (s : state) : state :=
  mkState (amplitude s) (frequency s) (phase s) (noise_mean s)
    (noise_covariance s) (filter_window s) (t s)
    (pure_signal s) (noise s) v (filtered_signal s)
    (pure_line s) (noisy_line s) (filtered_line s) (sliders s) (np_random s).

Definition set_filtered_signal (v : ndarray) (s : state) : state :=
  mkState (amplitude s) (frequency s) (phase s) (noise_mean s)
    (noise_covariance s) (filter_window s) (t s)
    (pure_signal s) (noise s) (noisy_signal s) v
    (pure_line s) (noisy_line s) (filtered_line s) (sliders s) (np_random s).

Definition set_lines (p n f : Line2D) (s : state) : state :=
  mkState (amplitude s) (frequency s) (phase s) (noise_mean s)
    (noise_covariance s) (filter_window s) (t s)
    (pure_signal s) (noise s) (noisy_signal s) (filtered_signal s)
    p n f (sliders s) (np_random s).

Definition set_sliders (d : slider_dict) (s : state) : state :=
  mkState (amplitude s) (frequency s) (phase s) (noise_mean s)
    (noise_covariance s) (filter_window s) (t s)
    (pure_signal s) (noise s) (noisy_signal s) (filtered_signal s)
    (pure_line s) (noisy_line s) (filtered_line s) d (np_random s).

Definition set_filter_window (w : Z) (s : state) : state :=
  mkState (amplitude s) (frequency s) (phase s) (noise_mean s)
    (noise_covariance s) w (t s)
    (pure_signal s) (noise s) (noisy_signal s) (filtered_signal s)
    (pure_line s) (noisy_line s) (filtered_line s) (sliders s) (np_random s).

(** [self.amplitude * np.sin(2 * np.pi * self.frequency * self.t + self.phase)] *)
Definition _calculate_harmonic (s : state) : ndarray :=
  map (fun ti =>
         smul (Fin (amplitude s))
              (ssin (sadd (smul (Fin (2 * PI * frequency s)) ti)
                          (Fin (phase s)))))
      (t s).

(** [np.random.normal(self.noise_mean, np.sqrt(self.noise_covariance), len(self.t))] *)
Definition _generate_noise (s : state) : result (ndarray * rng) :=
  random_normal (noise_mean s) (ssqrt (Fin (noise_covariance s)))
                (length (t s)) (np_random s).

(** [window = np.ones(self.filter_window) / self.filter_window], then
    [np.convolve(self.noisy_signal, window, mode='same')]. *)
Definition _apply_filter (s : state) : result ndarray :=
  ones <- np.ones (filter_window s) ;;
  let window := np.div_int ones (filter_window s) in
  np.convolve_same (noisy_signal s) window.

(** The four assignments that [__init__] and [_update] both make:
    [pure_signal], [noise], [noisy_signal] and [filtered_signal], in that
    order, each reading the attributes assigned before it.  An exception
    leaves the handler at once. *)
Definition recompute (s : state) : result state :=
  let s := set_pure_signal (_calculate_harmonic s) s in
  ng <- _generate_noise s ;;
  let s := set_noise (fst ng) (snd ng) s in
  let s := set_noisy_signal (np.add (pure_signal s) (noise s)) s in
  f <- _apply_filter s ;;
  ret (set_filtered_signal f s).

(** The three blocks of [_update(val)]: "Update parameters" copies the
    slider values into the parameters, "Update signals" is [recompute],
    "Update plot" hands the new signals to the three lines. *)
Definition update_parameters (s : state) : state :=
  let d := sliders s in
  set_params (val (get_slider k_amplitude d))
             (val (get_slider k_frequency d))
             (val (get_slider k_noise_mean d))
             (val (get_slider k_covariance d)) s.

Definition update_plot (s : state) : state :=
  set_lines (set_ydata (pure_signal s) (pure_line s))
            (set_ydata (noisy_signal s) (noisy_line s))
            (set_ydata (filtered_signal s) (filtered_line s)) s.

Definition _update (s : state) : result state :=
  s <- recompute (update_parameters s) ;;
  ret (update_plot s).

(** [_update_visibility(label)] *)
Definition _update_visibility (label : string) (s : state) : state :=
  if String.eqb label "Show Noise" then
    set_lines (pure_line s)
              (set_visible (negb (get_visible (noisy_line s))) (noisy_line s))
              (filtered_line s) s
  else if String.eqb label "Show Filtered" then
    set_lines (pure_line s) (noisy_line s)
              (set_visible (negb (get_visible (filtered_line s))) (filtered_line s)) s
  else s.

(** [Slider.set_val(v)]: store the value, then call the observer registered
    with [on_changed], which is [_update]. *)
Definition Slider_set_val (k : slider_key) (v : R) (s : state) : result state :=
  _update (set_sliders (put_slider k (with_val v (get_slider k (sliders s))) (sliders s)) s).

(** [Slider.reset()]: [set_val(valinit)] unless the value is [valinit] already. *)
Definition Slider_reset (k : slider_key) (s : state) : result state :=
  let sl := get_slider k (sliders s) in
  if Req_dec_T (val sl) (valinit sl) then ret s
  else Slider_set_val k (valinit sl) s.

Fixpoint for_each {A : Type} (body : A -> state -> result state)
         (l : list A) (s : state) : result state :=
  match l with
  | [] => ret s
  | x :: l' => s' <- body x s ;; for_each body l' s'
  end.

(** [_reset(event)]: reset every slider, then [_update(None)]. *)
Definition _reset (s : state) : result state :=
  s <- for_each Slider_reset slider_keys s ;;
  _update s.

(** [_setup_plot()]: three visible lines over the current signals and four
    sliders whose initial values are the current parameters. *)
Definition _setup_plot (s : state) : state :=
  let s := set_lines (mkLine (pure_signal s) true)
                     (mkLine (noisy_signal s) true)
                     (mkLine (filtered_signal s) true) s in
  set_sliders
    (mkSliders (mkSlider (amplitude s) (amplitude s) 0.1 5.0)
               (mkSlider (frequency s) (frequency s) 0.1 3.0)
               (mkSlider (noise_mean s) (noise_mean s) (-1.0) 1.0)
               (mkSlider (noise_covariance s) (noise_covariance s) 0.0 1.0))
    s.

(** The first seven assignments of [__init__()]: the six parameters and the
    time base, with the generator in state [g].  The attributes that are not
    assigned yet are held at placeholders that nothing reads. *)
Definition initial_attributes (g : rng) : state :=
  let no_line := mkLine [] false in
  let no_slider := mkSlider 0 0 0 0 in
  mkState 1.0 1.0 0.0 0.0 0.2 10 (np.linspace 0 10 1000)
          [] [] [] [] no_line no_line no_line
          (mkSliders no_slider no_slider no_slider no_slider) g.

(** [__init__()]: the initial signals, then the plot. *)
Definition __init__ (g : rng) : result state :=
  s <- recompute (initial_attributes g) ;;
  ret (_setup_plot s).

(** ** Events delivered by the user interface *)

Inductive event : Type :=
| slider_moved (k : slider_key) (v : R)
| check_clicked (label : string)
| reset_clicked.

Definition handle (ev : event) (s : state) : result state :=
  match ev with
  | slider_moved k v => Slider_set_val k v s
  | check_clicked label => ret (_update_visibility label s)
  | reset_clicked => _reset s
  end.

(** The states the program can be in: the one [__init__] builds, and those
    reached from it by handling events. *)
Inductive reachable : state -> Prop :=
| reach_init g s : __init__ g = inr s -> reachable s
| reach_step ev s s' : reachable s -> handle ev s = inr s' -> reachable s'.

(** ** Definitions used to state the properties *)

(** The kernel [np.ones(w) / w] that [_apply_filter] builds when [w >= 0]:
    [w] taps, each [1 / w]. *)
Definition kernel (w : Z) : ndarray := np.div_int (repeat (Fin 1) (Z.to_nat w)) w.

(** What [_generate_noise] draws in state [s]. *)
Definition current_draw (s : state) : ndarray :=
  normal_samples (noise_mean s) (ssqrt (Fin (noise_covariance s)))
                 (fst (gauss_draws (length (t s)) (np_random s))).

(** The state after the first three assignments of [recompute]. *)
Definition with_noisy (s : state) : state :=
  let s1 := set_pure_signal (_calculate_harmonic s) s in
  let s2 := set_noise (current_draw s)
                      (snd (gauss_draws (length (t s)) (np_random s))) s1 in
  set_noisy_signal (np.add (pure_signal s2) (noise s2)) s2.

(** The startup values of the six parameters. *)
Definition has_defaults (s : state) : Prop :=
  amplitude s = 1.0 /\ frequency s = 1.0 /\ phase s = 0.0 /\
  noise_mean s = 0.0 /\ noise_covariance s = 0.2 /\ filter_window s = 10%Z.

(** What every reachable state satisfies: the two parameters without a
    slider keep their startup values, the time base is the one [__init__]
    built, the sliders remember the startup values, and the three signals
    have one sample per instant. *)
Definition invariant (s : state) : Prop :=
  phase s = 0.0 /\ filter_window s = 10%Z /\
  t s = np.linspace 0 10 1000 /\
  (valinit (sl_amplitude (sliders s)) = 1.0 /\
   valinit (sl_frequency (sliders s)) = 1.0 /\
   valinit (sl_noise_mean (sliders s)) = 0.0 /\
   valinit (sl_covariance (sliders s)) = 0.2) /\
  (length (pure_signal s) = 1000%nat /\
   length (noisy_signal s) = 1000%nat /\
   length (filtered_signal s) = 1000%nat).

(** Slider [k] shows the value it was created with. *)
Definition settled (k : slider_key) (s : state) : Prop :=
  val (get_slider k (sliders s)) = valinit (get_slider k (sliders s)).

(** Sample [z] of a signal that is continued with zeros on both sides. *)
Definition padded (a : ndarray) (z : Z) : scalar :=
  if (0 <=? z)%Z && (z <? Z.of_nat (length a))%Z
  then nth (Z.to_nat z) a NaN else Fin 0.

(** The sum of the zero-padded samples in the window of [w] positions
    centred at [i]: positions [i - w/2], ..., [i - w/2 + w - 1], that is
    [i - h .. i + h] for an odd [w = 2h + 1] and [i - h .. i + h - 1] for an
    even [w = 2h]. *)
Definition window_sum (a : ndarray) (w : Z) (i : nat) : scalar :=
  ssum (map (fun k => padded a (Z.of_nat i - w / 2 + Z.of_nat k))
            (seq 0 (Z.to_nat w))).

(** The parameter that the slider under key [k] controls. *)
Definition get_param (k : slider_key) (s : state) : R :=
  match k with
  | k_amplitude => amplitude s
  | k_frequency => frequency s
  | k_noise_mean => noise_mean s
  | k_covariance => noise_covariance s
  end.

(** The stored attributes agree with one another: the parameters are the
    slider values, the lines show the stored signals, and the stored signals
    are the ones the stored parameters give. *)
Definition up_to_date (s : state) : Prop :=
  (forall k, get_param k s = val (get_slider k (sliders s))) /\
  (ydata (pure_line s) = pure_signal s /\
   ydata (noisy_line s) = noisy_signal s /\
   ydata (filtered_line s) = filtered_signal s) /\
  (pure_signal s = _calculate_harmonic s /\
   noisy_signal s = np.add (pure_signal s) (noise s) /\
   _apply_filter s = inr (filtered_signal s)).

(** ** Facts about the numpy operations *)

Lemma nth_map_seq (f : nat -> scalar) (n i : nat) :
  (i < n)%nat -> nth i (map f (seq 0 n)) NaN = f i.
Proof.
  intros Hi.
  rewrite (nth_indep _ NaN (f 0%nat)) by (rewrite length_map, length_seq; exact Hi).
  rewrite map_nth, seq_nth by exact Hi.
  reflexivity.
Qed.

Lemma nth_removelast (l : ndarray) (i : nat) :
  (S i < length l)%nat -> nth i (removelast l) NaN = nth i l NaN.
Proof.
  revert i; induction l as [|x l IH]; intros i Hi; [reflexivity|].
  destruct l as [|y l]; [simpl in Hi; lia|].
  destruct i as [|i]; [reflexivity|].
  change (nth i (removelast (y :: l)) NaN = nth i (y :: l) NaN).
  apply IH. simpl in Hi |- *. lia.
Qed.

Lemma length_removelast (l : ndarray) :
  length (removelast l) = pred (length l).
Proof.
  rewrite removelast_firstn_len, length_firstn. lia.
Qed.

(** The grid of [np.linspace] when there are at least two points. *)
Lemma linspace_grid (start stop : R) (num : nat) :
  (1 < num)%nat ->
  np.linspace start stop num =
  removelast (map (fun i => Fin (INR i * ((stop - start) / INR (num - 1)) + start))
                  (seq 0 num)) ++ [Fin stop].
Proof.
  intros Hn. unfold np.linspace.
  assert (Hd : INR (num - 1) <> 0) by (apply not_0_INR; lia).
  destruct (Nat.ltb_spec 1 num) as [_|]; [|lia].
  destruct (Nat.ltb_spec 0 (num - 1)) as [_|]; [|lia].
  destruct (Req_dec_T ((stop - start) / INR (num - 1)) 0) as [Hz|Hz]; [|reflexivity].
  do 2 f_equal. apply map_ext. intros i. f_equal. field. exact Hd.
Qed.

Lemma length_linspace (start stop : R) (num : nat) :
  length (np.linspace start stop num) = num.
Proof.
  destruct (Nat.lt_ge_cases 1 num) as [Hn|Hn].
  - rewrite linspace_grid by exact Hn.
    rewrite length_app, length_removelast, length_map, length_seq. simpl. lia.
  - unfold np.linspace.
    destruct (Nat.ltb_spec 1 num) as [|_]; [lia|].
    destruct (Nat.ltb_spec 0 (num - 1)) as [|_]; [lia|].
    now rewrite length_map, length_seq.
Qed.

Lemma nth_linspace (start stop : R) (num i : nat) :
  (S i < num)%nat ->
  nth i (np.linspace start stop num) NaN =
  Fin (INR i * ((stop - start) / INR (num - 1)) + start).
Proof.
  intros Hi. rewrite linspace_grid by lia.
  rewrite app_nth1 by (rewrite length_removelast, length_map, length_seq; lia).
  rewrite nth_removelast by (rewrite length_map, length_seq; lia).
  apply nth_map_seq with (f := fun i => Fin (INR i * ((stop - start) / INR (num - 1)) + start)).
  lia.
Qed.

Lemma nth_linspace_last (start stop : R) (num : nat) :
  (1 < num)%nat ->
  nth (num - 1) (np.linspace start stop num) NaN = Fin stop.
Proof.
  intros Hn. rewrite linspace_grid by exact Hn.
  rewrite app_nth2 by (rewrite length_removelast, length_map, length_seq; lia).
  rewrite length_removelast, length_map, length_seq.
  replace (num - 1 - pred num)%nat with 0%nat by lia. reflexivity.
Qed.


(** The indices of [seq 0 n] that lie in [lo, hi) are a run of consecutive
    numbers. *)
Lemma filter_range (lo hi n : nat) :
  filter (fun m => (lo <=? m)%nat && (m <? hi)%nat) (seq 0 n) =
  seq lo (Nat.min hi n - lo).
Proof.
  induction n as [|n IH]; [now rewrite Nat.min_0_r|].
  rewrite seq_S, filter_app, IH. cbn [filter Nat.add].
  destruct (Nat.leb_spec lo n) as [Hlo|Hlo];
    destruct (Nat.ltb_spec n hi) as [Hhi|Hhi]; cbn [andb].
  - replace (Nat.min hi (S n) - lo)%nat with (S (Nat.min hi n - lo)) by lia.
    rewrite seq_S. do 2 f_equal. lia.
  - rewrite app_nil_r. f_equal. lia.
  - rewrite app_nil_r. f_equal. lia.
  - rewrite app_nil_r. f_equal. lia.
Qed.

(** The terms that enter entry [j] of a convolution with a kernel of
    [w >= 1] taps. *)
Lemma conv_indices (n w j : nat) :
  (1 <= w)%nat ->
  filter (fun m => (m <=? j)%nat && (j - m <? w)%nat) (seq 0 n) =
  seq (j + 1 - w) (Nat.min (j + 1) n - (j + 1 - w)).
Proof.
  intros Hw. rewrite <- filter_range. apply filter_ext. intros m.
  destruct (Nat.leb_spec m j), (Nat.ltb_spec (j - m) w),
    (Nat.leb_spec (j + 1 - w) m), (Nat.ltb_spec m (j + 1)); try reflexivity; lia.
Qed.

Lemma convolve_same_ok (a v : ndarray) :
  v <> [] -> (length v <= length a)%nat ->
  np.convolve_same a v =
  inr (map (fun i => np.conv_at a v (i + (length v - 1) / 2)%nat) (seq 0 (length a))).
Proof.
  intros Hv Hle. unfold np.convolve_same.
  destruct (Nat.ltb_spec (length a) (length v)) as [|_]; [lia|].
  destruct a as [|x a]; [destruct v; [congruence|simpl in Hle; lia]|].
  destruct v as [|y v]; [congruence|reflexivity].
Qed.

Lemma convolve_same_swap (a v : ndarray) :
  (length a < length v)%nat -> np.convolve_same a v = np.convolve_same v a.
Proof.
  intros Hlt. unfold np.convolve_same.
  destruct (Nat.ltb_spec (length a) (length v)) as [_|]; [|lia].
  destruct (Nat.ltb_spec (length v) (length a)) as [|_]; [lia|reflexivity].
Qed.

(** Mode 'same' returns as many entries as the longer operand has. *)
Lemma length_convolve_same (a v out : ndarray) :
  np.convolve_same a v = inr out ->
  length out = Nat.max (length a) (length v).
Proof.
  assert (H : forall a v out, (length v <= length a)%nat ->
              np.convolve_same a v = inr out -> length out = length a).
  { clear. intros a v out Hle Hc.
    destruct v as [|y v].
    - unfold np.convolve_same in Hc. simpl in Hc. destruct a; discriminate.
    - rewrite convolve_same_ok in Hc by (congruence || exact Hle).
      injection Hc as <-. now rewrite length_map, length_seq. }
  intros Hc. destruct (Nat.lt_ge_cases (length a) (length v)) as [Hlt|Hge].
  - rewrite convolve_same_swap in Hc by exact Hlt.
    rewrite (H v a out) by (lia || exact Hc). lia.
  - rewrite (H a v out) by (lia || exact Hc). lia.
Qed.

Lemma ones_ok (n : Z) :
  (0 <= n)%Z -> np.ones n = inr (repeat (Fin 1) (Z.to_nat n)).
Proof.
  intros Hn. unfold np.ones. destruct (Z.ltb_spec n 0); [lia|reflexivity].
Qed.

Lemma length_kernel (w : Z) : length (kernel w) = Z.to_nat w.
Proof. unfold kernel, np.div_int. now rewrite length_map, repeat_length. Qed.

Lemma nth_kernel (w : Z) (k : nat) :
  (1 <= w)%Z -> (k < Z.to_nat w)%nat -> nth k (kernel w) NaN = Fin (1 / IZR w).
Proof.
  intros Hw Hk. unfold kernel, np.div_int.
  rewrite (nth_indep _ NaN (sdiv (Fin 1) (Fin (IZR w))))
    by (rewrite length_map, repeat_length; exact Hk).
  rewrite (map_nth (fun x => sdiv x (Fin (IZR w)))), nth_repeat.
  unfold sdiv. destruct (Req_dec_T (IZR w) 0) as [Hz|_]; [|reflexivity].
  apply eq_IZR_R0 in Hz. lia.
Qed.

Lemma _apply_filter_ok (s : state) :
  (1 <= filter_window s)%Z ->
  _apply_filter s = np.convolve_same (noisy_signal s) (kernel (filter_window s)).
Proof.
  intros Hw. unfold _apply_filter. rewrite ones_ok by lia. reflexivity.
Qed.


Lemma conv_at_kernel (a : ndarray) (w : Z) (j : nat) :
  (1 <= w)%Z ->
  np.conv_at a (kernel w) j =
  ssum (map (fun m => smul (nth m a NaN) (Fin (1 / IZR w)))
            (seq (j + 1 - Z.to_nat w)
                 (Nat.min (j + 1) (length a) - (j + 1 - Z.to_nat w)))).
Proof.
  intros Hw. unfold np.conv_at.
  rewrite length_kernel, conv_indices by lia.
  f_equal. apply map_ext_in. intros m Hm. apply in_seq in Hm.
  rewrite nth_kernel by lia. reflexivity.
Qed.

Lemma map_nth_seq (a : ndarray) :
  map (fun i => nth i a NaN) (seq 0 (length a)) = a.
Proof.
  apply nth_ext with (d := NaN) (d' := NaN).
  - now rewrite length_map, length_seq.
  - intros i Hi. rewrite length_map, length_seq in Hi.
    now rewrite (nth_map_seq (fun i => nth i a NaN)).
Qed.

Lemma smul_one (x : scalar) : sadd (smul x (Fin (1 / 1))) (Fin 0) = x.
Proof. destruct x as [x|]; [|reflexivity]. simpl. f_equal. field. Qed.

(** ** The filter *)

(** C4 (as amended): on every non-empty signal the filter with
    [filter_window = 1] returns the signal unchanged. *)
Theorem filter_window_one_identity (s : state) :
  filter_window s = 1%Z -> noisy_signal s <> [] ->
  _apply_filter s = inr (noisy_signal s).
Proof.
  intros Hw Hne.
  assert (Hlen : (1 <= length (noisy_signal s))%nat).
  { destruct (noisy_signal s); [congruence|simpl; lia]. }
  rewrite _apply_filter_ok, Hw by lia.
  rewrite convolve_same_ok.
  - apply (f_equal inr).
    transitivity (map (fun i => nth i (noisy_signal s) NaN)
                      (seq 0 (length (noisy_signal s)))); [|apply map_nth_seq].
    apply map_ext_in. intros i Hi. apply in_seq in Hi.
    rewrite conv_at_kernel, length_kernel by lia.
    change (Z.to_nat 1) with 1%nat. change ((1 - 1) / 2)%nat with 0%nat.
    replace (i + 0 + 1 - 1)%nat with i by lia.
    replace (Nat.min (i + 0 + 1) (length (noisy_signal s)) - i)%nat with 1%nat by lia.
    cbn [seq map ssum fold_right]. apply smul_one.
  - intros Hk. apply (f_equal (@length scalar)) in Hk.
    rewrite length_kernel in Hk. discriminate Hk.
  - rewrite length_kernel. exact Hlen.
Qed.

(** C5: with [filter_window < 1] the filter raises, whatever the signal:
    [np.ones] rejects a negative size, [np.convolve] an empty kernel. *)
Theorem filter_window_below_one_raises (s : state) :
  (filter_window s < 1)%Z -> raises (_apply_filter s).
Proof.
  intros Hw. unfold raises, _apply_filter, np.ones.
  destruct (Z.ltb_spec (filter_window s) 0) as [Hneg|Hnn].
  - eexists. reflexivity.
  - assert (Hz : filter_window s = 0%Z) by lia. rewrite Hz.
    unfold np.convolve_same. cbn.
    destruct (noisy_signal s); eexists; reflexivity.
Qed.


(** ** The signal pipeline *)

Lemma length_gauss_draws (n : nat) (g : rng) :
  length (fst (gauss_draws n g)) = n.
Proof.
  revert g; induction n as [|n IH]; intros g; [reflexivity|].
  cbn [gauss_draws]. destruct (gauss g) as [z g1]. specialize (IH g1).
  destruct (gauss_draws n g1) as [zs g2]. simpl in *. now rewrite IH.
Qed.

Lemma length_add (a b : ndarray) :
  length (np.add a b) = Nat.min (length a) (length b).
Proof.
  revert b; induction a as [|x a IH]; intros [|y b]; simpl; try reflexivity.
  now rewrite IH.
Qed.

(** [np.sqrt] never returns a scale that [np.random.normal] rejects. *)
Lemma sqrt_scale_accepted (c : R) :
  negb (is_nan (ssqrt (Fin c))) && signbit (ssqrt (Fin c)) = false.
Proof.
  unfold ssqrt. destruct (Rlt_dec c 0) as [Hc|Hc]; [reflexivity|].
  cbn. destruct (Rlt_dec (sqrt c) 0) as [Hs|Hs]; [|reflexivity].
  pose proof (sqrt_pos c). lra.
Qed.

Lemma _generate_noise_ok (s : state) :
  _generate_noise s =
  inr (current_draw s, snd (gauss_draws (length (t s)) (np_random s))).
Proof.
  unfold _generate_noise, random_normal, current_draw, normal_samples.
  rewrite sqrt_scale_accepted.
  destruct (gauss_draws (length (t s)) (np_random s)) as [zs g']. reflexivity.
Qed.

Lemma length_current_draw (s : state) : length (current_draw s) = length (t s).
Proof.
  unfold current_draw, normal_samples. now rewrite length_map, length_gauss_draws.
Qed.

Lemma length_calculate_harmonic (s : state) :
  length (_calculate_harmonic s) = length (t s).
Proof. unfold _calculate_harmonic. now rewrite length_map. Qed.

Lemma length_noisy (s : state) :
  length (noisy_signal (with_noisy s)) = length (t s).
Proof.
  cbn. rewrite length_add, length_calculate_harmonic, length_current_draw. lia.
Qed.

(** [recompute] is the first three assignments followed by the filter. *)
Lemma recompute_unfold (s : state) :
  recompute s =
  (f <- _apply_filter (with_noisy s) ;; ret (set_filtered_signal f (with_noisy s))).
Proof.
  unfold recompute. rewrite _generate_noise_ok. reflexivity.
Qed.

Lemma convolve_same_succeeds (a v : ndarray) :
  a <> [] -> v <> [] -> exists out, np.convolve_same a v = inr out.
Proof.
  intros Ha Hv. unfold np.convolve_same.
  destruct (length a <? length v)%nat;
    destruct a; destruct v; try congruence; eexists; reflexivity.
Qed.

Lemma kernel_nonempty (w : Z) : (1 <= w)%Z -> kernel w <> [].
Proof.
  intros Hw Hk. apply (f_equal (@length scalar)) in Hk.
  rewrite length_kernel in Hk. simpl in Hk. lia.
Qed.

Lemma nonempty_length (a : ndarray) : a <> [] <-> (1 <= length a)%nat.
Proof. destruct a; simpl; split; intros; (congruence || lia). Qed.

(** With a positive window and a non-empty time base [recompute] succeeds,
    and its result is described field by field. *)
Lemma recompute_ok (s : state) :
  (1 <= filter_window s)%Z -> t s <> [] ->
  exists f,
    np.convolve_same (noisy_signal (with_noisy s)) (kernel (filter_window s)) = inr f /\
    recompute s = inr (set_filtered_signal f (with_noisy s)).
Proof.
  intros Hw Ht.
  destruct (convolve_same_succeeds (noisy_signal (with_noisy s))
                                   (kernel (filter_window s))) as [f Hf].
  - apply nonempty_length. rewrite length_noisy. now apply nonempty_length.
  - now apply kernel_nonempty.
  - exists f. split; [exact Hf|].
    rewrite recompute_unfold, _apply_filter_ok by exact Hw.
    change (filter_window (with_noisy s)) with (filter_window s).
    rewrite Hf. reflexivity.
Qed.


Lemma nth_add (a b : ndarray) (i : nat) :
  (i < length a)%nat -> (i < length b)%nat ->
  nth i (np.add a b) NaN = sadd (nth i a NaN) (nth i b NaN).
Proof.
  revert b i; induction a as [|x a IH]; intros [|y b] [|i] Ha Hb;
    simpl in *; try lia; try reflexivity.
  apply IH; lia.
Qed.

Lemma nth_calculate_harmonic (s : state) (i : nat) (ti : R) :
  nth i (t s) NaN = Fin ti ->
  nth i (_calculate_harmonic s) NaN =
  Fin (amplitude s * sin (2 * PI * frequency s * ti + phase s)).
Proof.
  intros Hti. unfold _calculate_harmonic.
  destruct (Nat.lt_ge_cases i (length (t s))) as [Hi|Hi].
  - rewrite (nth_indep _ NaN (smul (Fin (amplitude s)) (ssin (sadd (smul (Fin (2 * PI * frequency s)) NaN) (Fin (phase s))))))
      by (rewrite length_map; exact Hi).
    rewrite (map_nth (fun ti => smul (Fin (amplitude s)) (ssin (sadd (smul (Fin (2 * PI * frequency s)) ti) (Fin (phase s)))))).
    rewrite Hti. reflexivity.
  - rewrite nth_overflow in Hti by exact Hi. discriminate Hti.
Qed.

(** C1: a recompute with a positive window over a non-empty time base
    succeeds and yields [pure[i] = amplitude * sin(2*pi*frequency*t[i] + phase)]
    at every index, [noise] the current draw of the generator,
    [noisy = pure + noise] element by element, and [filtered] the
    convolution of the noisy signal (the attribute [_apply_filter] reads)
    with the kernel of [filter_window] taps. *)
Theorem recompute_signals (s : state) :
  (1 <= filter_window s)%Z -> t s <> [] ->
  exists s',
    recompute s = inr s' /\
    (forall i ti, nth i (t s) NaN = Fin ti ->
                  nth i (pure_signal s') NaN =
                  Fin (amplitude s * sin (2 * PI * frequency s * ti + phase s))) /\
    noise s' = current_draw s /\
    noisy_signal s' = np.add (pure_signal s') (noise s') /\
    (forall i, (i < length (t s))%nat ->
               nth i (noisy_signal s') NaN =
               sadd (nth i (pure_signal s') NaN) (nth i (noise s') NaN)) /\
    _apply_filter s' = inr (filtered_signal s') /\
    np.convolve_same (noisy_signal s') (kernel (filter_window s)) =
    inr (filtered_signal s').
Proof.
  intros Hw Ht. destruct (recompute_ok s Hw Ht) as [f [Hf Hr]].
  exists (set_filtered_signal f (with_noisy s)).
  split; [exact Hr|]. split; [|split; [|split; [|split; [|split]]]].
  - intros i ti Hti. now apply nth_calculate_harmonic.
  - reflexivity.
  - reflexivity.
  - intros i Hi. cbn. apply nth_add.
    + now rewrite length_calculate_harmonic.
    + now rewrite length_current_draw.
  - rewrite _apply_filter_ok by exact Hw. exact Hf.
  - exact Hf.
Qed.

(** The length of every signal after a recompute. *)
Lemma recompute_lengths_general (s : state) :
  (1 <= filter_window s)%Z -> t s <> [] ->
  exists s',
    recompute s = inr s' /\
    t s' = t s /\
    length (pure_signal s') = length (t s) /\
    length (noisy_signal s') = length (t s) /\
    length (filtered_signal s') =
    Nat.max (length (t s)) (Z.to_nat (filter_window s)).
Proof.
  intros Hw Ht. destruct (recompute_ok s Hw Ht) as [f [Hf Hr]].
  exists (set_filtered_signal f (with_noisy s)).
  split; [exact Hr|]. split; [reflexivity|]. split; [|split].
  - apply length_calculate_harmonic.
  - apply length_noisy.
  - apply length_convolve_same in Hf.
    rewrite length_noisy, length_kernel in Hf. exact Hf.
Qed.



(** ** The noise source *)

Lemma normal_samples_nan (loc : R) (zs : list R) :
  normal_samples loc NaN zs = repeat NaN (length zs).
Proof.
  induction zs as [|z zs IH]; [reflexivity|]. simpl. now rewrite <- IH.
Qed.

Lemma normal_samples_zero_scale (loc : R) (zs : list R) :
  normal_samples loc (Fin 0) zs = map (fun _ => Fin loc) zs.
Proof.
  unfold normal_samples. apply map_ext. intros z. simpl. f_equal. ring.
Qed.

Lemma ssqrt_negative (c : R) : c < 0 -> ssqrt (Fin c) = NaN.
Proof.
  intros Hc. unfold ssqrt. destruct (Rlt_dec c 0); [reflexivity|contradiction].
Qed.

Lemma ssqrt_zero : ssqrt (Fin 0) = Fin 0.
Proof.
  unfold ssqrt. destruct (Rlt_dec 0 0); [lra|]. now rewrite sqrt_0.
Qed.

(** C6 (as amended): the noise source has no check of its own and
    [np.sqrt] turns a negative variance into nan, which
    [np.random.normal] accepts as a scale; the call does not raise, it
    advances the generator and returns [len(t)] samples that are all nan. *)
Theorem negative_variance_gives_nan (s : state) :
  noise_covariance s < 0 ->
  ~ raises (_generate_noise s) /\
  _generate_noise s =
  inr (repeat NaN (length (t s)),
       snd (gauss_draws (length (t s)) (np_random s))).
Proof.
  intros Hc.
  assert (H : _generate_noise s =
              inr (repeat NaN (length (t s)),
                   snd (gauss_draws (length (t s)) (np_random s)))).
  { rewrite _generate_noise_ok. unfold current_draw.
    rewrite ssqrt_negative by exact Hc.
    now rewrite normal_samples_nan, length_gauss_draws. }
  split; [|exact H]. intros [e He]. rewrite H in He. discriminate He.
Qed.

Lemma add_constant (a : ndarray) (zs : list R) (c : scalar) :
  length zs = length a ->
  np.add a (map (fun _ => c) zs) = map (fun p => sadd p c) a.
Proof.
  revert zs; induction a as [|x a IH]; intros [|z zs] Hlen;
    simpl in *; try discriminate; try reflexivity.
  f_equal. apply IH. now injection Hlen.
Qed.

(** Without variance every noise sample is the mean. *)
Lemma noisy_zero_variance (s : state) :
  noise_covariance s = 0 ->
  noisy_signal (with_noisy s) =
  map (fun p => sadd p (Fin (noise_mean s))) (_calculate_harmonic s).
Proof.
  intros Hc. cbn. unfold current_draw.
  rewrite Hc, ssqrt_zero, normal_samples_zero_scale.
  apply add_constant.
  now rewrite length_gauss_draws, length_calculate_harmonic.
Qed.

Lemma sadd_zero (p : scalar) : sadd p (Fin 0) = p.
Proof. destruct p as [x|]; [|reflexivity]. simpl. f_equal. ring. Qed.

(** C7 (as amended): with [noise_covariance = 0] a recompute yields
    [noisy[i] = pure[i] + noise_mean] at every index, whatever the generator
    draws; the noisy signal equals the pure signal when [noise_mean] is 0
    as well. *)
Theorem zero_variance_noisy (s : state) :
  noise_covariance s = 0 -> (1 <= filter_window s)%Z -> t s <> [] ->
  exists s',
    recompute s = inr s' /\
    noisy_signal s' = map (fun p => sadd p (Fin (noise_mean s))) (pure_signal s') /\
    (noise_mean s = 0 -> noisy_signal s' = pure_signal s').
Proof.
  intros Hc Hw Ht. destruct (recompute_ok s Hw Ht) as [f [Hf Hr]].
  exists (set_filtered_signal f (with_noisy s)).
  split; [exact Hr|].
  change (noisy_signal (set_filtered_signal f (with_noisy s)))
    with (noisy_signal (with_noisy s)).
  change (pure_signal (set_filtered_signal f (with_noisy s)))
    with (_calculate_harmonic s).
  rewrite noisy_zero_variance by exact Hc. split; [reflexivity|].
  intros Hm. rewrite Hm.
  rewrite (map_ext _ (fun p => p) sadd_zero). apply map_id.
Qed.

(** ** The time base *)

Lemma INR_999 : INR 999 = 999.
Proof. rewrite INR_IZR_INZ. reflexivity. Qed.

Lemma nth_time_base (i : nat) :
  (i < 1000)%nat ->
  nth i (np.linspace 0 10 1000) NaN = Fin (INR i * (10 / 999)).
Proof.
  intros Hi. destruct (Nat.eq_dec i 999) as [->|Hne].
  - change 999%nat with (1000 - 1)%nat at 1.
    rewrite nth_linspace_last by lia. f_equal.
    rewrite INR_999. lra.
  - rewrite nth_linspace by lia.
    change (1000 - 1)%nat with 999%nat. rewrite INR_999. f_equal. lra.
Qed.


(** C3: [__init__] succeeds and the time base it stores has exactly 1000
    instants, starts at 0, ends at 10, has the same spacing 10/999 between
    any two neighbours and is strictly increasing. *)
Theorem time_base_grid (g : rng) :
  exists s,
    __init__ g = inr s /\
    t s = np.linspace 0 10 1000 /\
    length (t s) = 1000%nat /\
    nth 0 (t s) NaN = Fin 0 /\
    nth 999 (t s) NaN = Fin 10 /\
    (forall i, (i < 999)%nat ->
       exists x y, nth i (t s) NaN = Fin x /\ nth (S i) (t s) NaN = Fin y /\
                   y - x = 10 / 999) /\
    (forall i j, (i < j)%nat -> (j < 1000)%nat ->
       exists x y, nth i (t s) NaN = Fin x /\ nth j (t s) NaN = Fin y /\ x < y).
Proof.
  destruct (recompute_ok (initial_attributes g)) as [f [_ Hr]].
  - cbn. lia.
  - apply nonempty_length. cbn [t initial_attributes].
    rewrite length_linspace. lia.
  - eexists. split; [unfold __init__; rewrite Hr; reflexivity|].
    cbn [t _setup_plot set_sliders set_lines set_filtered_signal with_noisy
           set_noisy_signal set_noise set_pure_signal initial_attributes].
    split; [reflexivity|]. split; [apply length_linspace|].
    split; [|split; [|split]].
    + rewrite nth_time_base by lia. f_equal. simpl. lra.
    + rewrite nth_time_base by lia. f_equal. rewrite INR_999. lra.
    + intros i Hi. exists (INR i * (10 / 999)), (INR (S i) * (10 / 999)).
      rewrite !nth_time_base by lia. split; [reflexivity|]. split; [reflexivity|].
      rewrite S_INR. lra.
    + intros i j Hij Hj. exists (INR i * (10 / 999)), (INR j * (10 / 999)).
      rewrite !nth_time_base by lia. split; [reflexivity|]. split; [reflexivity|].
      apply Rmult_lt_compat_r; [lra|]. now apply lt_INR.
Qed.

(** ** Event handlers *)

(** C9: [_update_visibility] leaves the six parameters, the time base, the
    sliders, the generator, the pure, noise, noisy and filtered signals and
    the samples each line shows as they were, for every label; it only
    flips the visibility flag of the noisy line on 'Show Noise' and of the
    filtered line on 'Show Filtered'. *)
Theorem visibility_toggle_frame (label : string) (s : state) :
  let s' := _update_visibility label s in
  (amplitude s' = amplitude s /\ frequency s' = frequency s /\
   phase s' = phase s /\ noise_mean s' = noise_mean s /\
   noise_covariance s' = noise_covariance s /\
   filter_window s' = filter_window s) /\
  (t s' = t s /\ sliders s' = sliders s /\ np_random s' = np_random s) /\
  (pure_signal s' = pure_signal s /\ noise s' = noise s /\
   noisy_signal s' = noisy_signal s /\ filtered_signal s' = filtered_signal s) /\
  (pure_line s' = pure_line s /\
   ydata (noisy_line s') = ydata (noisy_line s) /\
   ydata (filtered_line s') = ydata (filtered_line s)) /\
  visible (noisy_line s') =
    (if String.eqb label "Show Noise" then negb (visible (noisy_line s))
     else visible (noisy_line s)) /\
  visible (filtered_line s') =
    (if String.eqb label "Show Noise" then visible (filtered_line s)
     else if String.eqb label "Show Filtered" then negb (visible (filtered_line s))
     else visible (filtered_line s)).
Proof.
  unfold _update_visibility.
  destruct (String.eqb label "Show Noise");
    [|destruct (String.eqb label "Show Filtered")];
    cbn; repeat split; reflexivity.
Qed.

Lemma _update_ok (s : state) :
  (1 <= filter_window s)%Z -> t s <> [] ->
  exists f,
    np.convolve_same (noisy_signal (with_noisy (update_parameters s)))
                     (kernel (filter_window s)) = inr f /\
    _update s =
    inr (update_plot (set_filtered_signal f (with_noisy (update_parameters s)))).
Proof.
  intros Hw Ht.
  destruct (recompute_ok (update_parameters s)) as [f [Hf Hr]];
    [exact Hw|exact Ht|].
  exists f. split; [exact Hf|]. unfold _update. rewrite Hr. reflexivity.
Qed.


Lemma invariant_time_base (s : state) :
  invariant s -> (1 <= filter_window s)%Z /\ t s <> [] /\ length (t s) = 1000%nat.
Proof.
  intros (_ & Hw & Ht & _). rewrite Hw, Ht, length_linspace.
  split; [lia|]. split; [|reflexivity].
  apply nonempty_length. rewrite length_linspace. lia.
Qed.

(** [_update] succeeds in every state that satisfies the invariant, keeps
    the invariant and the sliders, and makes the four slider values the
    parameters. *)
Lemma _update_spec (s : state) :
  invariant s ->
  exists s',
    _update s = inr s' /\ invariant s' /\ sliders s' = sliders s /\
    amplitude s' = val (sl_amplitude (sliders s)) /\
    frequency s' = val (sl_frequency (sliders s)) /\
    noise_mean s' = val (sl_noise_mean (sliders s)) /\
    noise_covariance s' = val (sl_covariance (sliders s)).
Proof.
  intros Hinv. destruct (invariant_time_base s Hinv) as (Hw & Ht & Hlen).
  destruct Hinv as (Hph & Hwin & Htb & Hinit & _).
  destruct (_update_ok s Hw Ht) as [f [Hf Hu]].
  eexists. split; [exact Hu|].
  split; [|repeat split; reflexivity].
  apply length_convolve_same in Hf.
  rewrite length_noisy, length_kernel, Hwin in Hf.
  change (t (update_parameters s)) with (t s) in Hf. rewrite Hlen in Hf.
  unfold invariant. split; [exact Hph|]. split; [exact Hwin|].
  split; [exact Htb|]. split; [exact Hinit|].
  split; [|split].
  - change (length (_calculate_harmonic (update_parameters s)) = 1000%nat).
    rewrite length_calculate_harmonic. exact Hlen.
  - change (length (noisy_signal (with_noisy (update_parameters s))) = 1000%nat).
    rewrite length_noisy. exact Hlen.
  - change (length f = 1000%nat). rewrite Hf. reflexivity.
Qed.

Lemma invariant_put_slider (k : slider_key) (v : R) (s : state) :
  invariant s ->
  invariant (set_sliders
               (put_slider k (with_val v (get_slider k (sliders s))) (sliders s)) s).
Proof.
  intros (Hph & Hwin & Htb & Hinit & Hlen).
  unfold invariant. split; [exact Hph|]. split; [exact Hwin|].
  split; [exact Htb|]. split; [|exact Hlen].
  destruct k; exact Hinit.
Qed.

Lemma get_put_slider (k k' : slider_key) (sl : Slider) (d : slider_dict) :
  get_slider k' (put_slider k sl d) = if slider_key_eqb k k' then sl else get_slider k' d.
Proof. destruct k, k'; reflexivity. Qed.

Lemma Slider_set_val_spec (k : slider_key) (v : R) (s : state) :
  invariant s ->
  exists s',
    Slider_set_val k v s = inr s' /\ invariant s' /\
    sliders s' = put_slider k (with_val v (get_slider k (sliders s))) (sliders s).
Proof.
  intros Hinv. unfold Slider_set_val.
  destruct (_update_spec _ (invariant_put_slider k v s Hinv))
    as (s' & Hu & Hinv' & Hsl & _).
  exists s'. split; [exact Hu|]. split; [exact Hinv'|exact Hsl].
Qed.

(** [Slider.reset()] settles its own slider and keeps the others settled. *)
Lemma Slider_reset_spec (k : slider_key) (s : state) :
  invariant s ->
  exists s',
    Slider_reset k s = inr s' /\ invariant s' /\ settled k s' /\
    (forall k', settled k' s -> settled k' s').
Proof.
  intros Hinv. unfold Slider_reset.
  destruct (Req_dec_T (val (get_slider k (sliders s)))
                      (valinit (get_slider k (sliders s)))) as [Heq|Hne].
  - exists s. split; [reflexivity|]. split; [exact Hinv|]. split; [exact Heq|auto].
  - destruct (Slider_set_val_spec k (valinit (get_slider k (sliders s))) s Hinv)
      as (s' & Hs & Hinv' & Hsl).
    exists s'. split; [exact Hs|]. split; [exact Hinv'|].
    unfold settled. rewrite Hsl. split.
    + rewrite get_put_slider. destruct k; reflexivity.
    + intros k' Hk'. rewrite get_put_slider.
      destruct (slider_key_eqb k k') eqn:E; [|exact Hk'].
      destruct k, k'; try discriminate E; reflexivity.
Qed.

Lemma for_each_reset_spec (l : list slider_key) (s : state) :
  invariant s ->
  exists s',
    for_each Slider_reset l s = inr s' /\ invariant s' /\
    (forall k, In k l -> settled k s') /\
    (forall k, settled k s -> settled k s').
Proof.
  revert s; induction l as [|k l IH]; intros s Hinv.
  - exists s. split; [reflexivity|]. split; [exact Hinv|].
    split; [intros k []|auto].
  - destruct (Slider_reset_spec k s Hinv) as (s1 & H1 & Hinv1 & Hk & Hkeep1).
    destruct (IH s1 Hinv1) as (s' & H' & Hinv' & Hl & Hkeep').
    exists s'. cbn [for_each]. rewrite H1. split; [exact H'|].
    split; [exact Hinv'|]. split.
    + intros k' [<-|Hin]; [apply Hkeep'; exact Hk|apply Hl; exact Hin].
    + intros k' Hk'. apply Hkeep', Hkeep1, Hk'.
Qed.

(** [_reset] succeeds in every state that satisfies the invariant and
    leaves every parameter at its startup value. *)
Lemma _reset_spec (s : state) :
  invariant s ->
  exists s', _reset s = inr s' /\ invariant s' /\ has_defaults s'.
Proof.
  intros Hinv. unfold _reset.
  destruct (for_each_reset_spec slider_keys s Hinv) as (s1 & H1 & Hinv1 & Hall & _).
  destruct (_update_spec s1 Hinv1) as (s' & Hu & Hinv' & _ & Ha & Hf & Hm & Hc).
  exists s'. rewrite H1. split; [exact Hu|]. split; [exact Hinv'|].
  destruct Hinv1 as (_ & _ & _ & (Ia & If & Im & Ic) & _).
  destruct Hinv' as (Hph & Hwin & _).
  pose proof (Hall k_amplitude) as Sa. pose proof (Hall k_frequency) as Sf.
  pose proof (Hall k_noise_mean) as Sm. pose proof (Hall k_covariance) as Sc.
  unfold settled, slider_keys in Sa, Sf, Sm, Sc. cbn [get_slider In] in Sa, Sf, Sm, Sc.
  unfold has_defaults.
  rewrite Ha, Hf, Hm, Hc, Sa, Sf, Sm, Sc by tauto.
  repeat split; assumption.
Qed.

Lemma __init___spec (g : rng) :
  exists s, __init__ g = inr s /\ invariant s /\ has_defaults s.
Proof.
  destruct (recompute_lengths_general (initial_attributes g))
    as (s0 & Hr & Ht & Hp & Hn & Hf).
  - cbn. lia.
  - apply nonempty_length. cbn [t initial_attributes].
    rewrite length_linspace. lia.
  - cbn [t initial_attributes filter_window] in Ht, Hp, Hn, Hf.
    rewrite length_linspace in Hp, Hn, Hf.
    exists (_setup_plot s0). unfold __init__. rewrite Hr.
    split; [reflexivity|].
    destruct (recompute_ok (initial_attributes g)) as [f [_ Hr']].
    + cbn. lia.
    + apply nonempty_length. cbn [t initial_attributes].
      rewrite length_linspace. lia.
    + rewrite Hr' in Hr. injection Hr as <-. split.
      * unfold invariant. split; [reflexivity|]. split; [reflexivity|].
        split; [reflexivity|]. split; [repeat split; reflexivity|].
        split; [exact Hp|]. split; [exact Hn|exact Hf].
      * unfold has_defaults. repeat split; reflexivity.
Qed.

Lemma _update_visibility_invariant (label : string) (s : state) :
  invariant s -> invariant (_update_visibility label s).
Proof.
  intros Hinv. unfold _update_visibility.
  destruct (String.eqb label "Show Noise");
    [|destruct (String.eqb label "Show Filtered")]; exact Hinv.
Qed.

Lemma reachable_invariant (s : state) : reachable s -> invariant s.
Proof.
  induction 1 as [g s Hinit|ev s s' _ IH Hstep].
  - destruct (__init___spec g) as (s0 & H0 & Hinv & _).
    rewrite H0 in Hinit. injection Hinit as <-. exact Hinv.
  - destruct ev as [k v|label|]; cbn [handle] in Hstep.
    + destruct (Slider_set_val_spec k v s IH) as (s1 & H1 & Hinv & _).
      rewrite H1 in Hstep. injection Hstep as <-. exact Hinv.
    + injection Hstep as <-. now apply _update_visibility_invariant.
    + destruct (_reset_spec s IH) as (s1 & H1 & Hinv & _).
      rewrite H1 in Hstep. injection Hstep as <-. exact Hinv.
Qed.

(** In every state the program can reach, the window is 10 and the time base
    and the three signals have 1000 entries each. *)
Lemma reachable_lengths (s : state) :
  reachable s ->
  filter_window s = 10%Z /\ length (t s) = 1000%nat /\
  length (pure_signal s) = 1000%nat /\ length (noisy_signal s) = 1000%nat /\
  length (filtered_signal s) = 1000%nat.
Proof.
  intros Hr. apply reachable_invariant in Hr.
  destruct (invariant_time_base s Hr) as (_ & _ & Ht).
  destruct Hr as (_ & Hw & _ & _ & Hp & Hn & Hf).
  repeat split; assumption.
Qed.

(** C8: in every state the program can reach, whatever values the sliders
    hold, a reset succeeds and leaves amplitude = 1.0, frequency = 1.0,
    phase = 0.0, noise_mean = 0.0, noise_covariance = 0.2 and
    filter_window = 10. *)
Theorem reset_restores_defaults (s : state) :
  reachable s ->
  exists s',
    handle reset_clicked s = inr s' /\
    amplitude s' = 1.0 /\ frequency s' = 1.0 /\ phase s' = 0.0 /\
    noise_mean s' = 0.0 /\ noise_covariance s' = 0.2 /\
    filter_window s' = 10%Z.
Proof.
  intros Hr. apply reachable_invariant in Hr.
  destruct (_reset_spec s Hr) as (s' & Hs & _ & Hd).
  exists s'. split; [exact Hs|exact Hd].
Qed.


(** ** The boundary policy of the filter *)

Lemma sadd_zero_l (x : scalar) : sadd (Fin 0) x = x.
Proof. destruct x as [x|]; [|reflexivity]. simpl. f_equal. ring. Qed.

Lemma ssum_filter (p : nat -> bool) (f : nat -> scalar) (l : list nat) :
  ssum (map (fun k => if p k then f k else Fin 0) l) = ssum (map f (filter p l)).
Proof.
  induction l as [|k l IH]; [reflexivity|].
  cbn [map filter]. destruct (p k).
  - cbn [map ssum fold_right]. fold (ssum (map f (filter p l))).
    fold (ssum (map (fun k => if p k then f k else Fin 0) l)). now rewrite IH.
  - cbn [ssum fold_right]. fold (ssum (map (fun k => if p k then f k else Fin 0) l)).
    rewrite sadd_zero_l. exact IH.
Qed.

Lemma ssum_scale (c : R) (g : nat -> scalar) (l : list nat) :
  ssum (map (fun m => smul (g m) (Fin c)) l) = smul (Fin c) (ssum (map g l)).
Proof.
  induction l as [|m l IH].
  - simpl. f_equal. ring.
  - cbn [map ssum fold_right].
    fold (ssum (map (fun m => smul (g m) (Fin c)) l)). fold (ssum (map g l)).
    rewrite IH. destruct (g m) as [x|], (ssum (map g l)) as [y|]; try reflexivity.
    simpl. f_equal. ring.
Qed.

Lemma map_seq_shift (f g : nat -> scalar) (a b n : nat) :
  (forall d, (d < n)%nat -> f (a + d)%nat = g (b + d)%nat) ->
  map f (seq a n) = map g (seq b n).
Proof.
  revert a b; induction n as [|n IH]; intros a b H; [reflexivity|].
  cbn [seq map]. f_equal.
  - specialize (H 0%nat). rewrite !Nat.add_0_r in H. apply H. lia.
  - apply IH. intros d Hd. specialize (H (S d)).
    rewrite !Nat.add_succ_r in H. apply H. lia.
Qed.

Lemma half_split (w : nat) : (1 <= w)%nat -> ((w - 1) / 2 + w / 2 = w - 1)%nat.
Proof.
  intros Hw.
  pose proof (Nat.div_mod_eq (w - 1) 2) as H1.
  pose proof (Nat.div_mod_eq w 2) as H2.
  pose proof (Nat.mod_upper_bound (w - 1) 2) as B1.
  pose proof (Nat.mod_upper_bound w 2) as B2.
  generalize dependent ((w - 1) / 2)%nat. generalize dependent (w / 2)%nat.
  generalize dependent ((w - 1) mod 2)%nat. generalize dependent (w mod 2)%nat.
  intros. lia.
Qed.

Lemma half_of_nat (w : Z) : (1 <= w)%Z -> (w / 2 = Z.of_nat (Z.to_nat w / 2))%Z.
Proof. intros Hw. rewrite Nat2Z.inj_div, Z2Nat.id by lia. reflexivity. Qed.

(** The zero-padded window around [i] holds exactly the samples that enter
    entry [i + (w - 1) / 2] of the full convolution. *)
Lemma window_sum_range (a : ndarray) (w : Z) (i : nat) :
  (1 <= w)%Z -> (i < length a)%nat ->
  let j := (i + (Z.to_nat w - 1) / 2)%nat in
  window_sum a w i =
  ssum (map (fun m => nth m a NaN)
            (seq (j + 1 - Z.to_nat w)
                 (Nat.min (j + 1) (length a) - (j + 1 - Z.to_nat w)))).
Proof.
  intros Hw Hi j. unfold window_sum, padded.
  rewrite (half_of_nat w Hw).
  assert (Hh := half_split (Z.to_nat w) ltac:(lia)).
  assert (Hw' : (1 <= Z.to_nat w)%nat) by lia.
  subst j.
  set (n := Z.to_nat w) in *. set (h1 := ((n - 1) / 2)%nat) in *.
  set (h2 := (n / 2)%nat) in *. set (len := length a) in *.
  clearbody h1 h2 len n.
  rewrite (ssum_filter
             (fun k => (0 <=? Z.of_nat i - Z.of_nat h2 + Z.of_nat k)%Z
                       && (Z.of_nat i - Z.of_nat h2 + Z.of_nat k <? Z.of_nat len)%Z)
             (fun k => nth (Z.to_nat (Z.of_nat i - Z.of_nat h2 + Z.of_nat k)) a NaN)).
  rewrite (filter_ext _ (fun k => (n - 1 - (i + h1) <=? k)%nat
                                  && (k <? len + n - 1 - (i + h1))%nat)).
  - rewrite filter_range. f_equal.
    replace (Nat.min (len + n - 1 - (i + h1)) n - (n - 1 - (i + h1)))%nat
      with (Nat.min (i + h1 + 1) len - (i + h1 + 1 - n))%nat by lia.
    apply map_seq_shift. intros d Hd. f_equal. lia.
  - intros k.
    destruct (Z.leb_spec 0 (Z.of_nat i - Z.of_nat h2 + Z.of_nat k)),
      (Z.ltb_spec (Z.of_nat i - Z.of_nat h2 + Z.of_nat k) (Z.of_nat len)),
      (Nat.leb_spec (n - 1 - (i + h1)) k),
      (Nat.ltb_spec k (len + n - 1 - (i + h1))); try reflexivity; lia.
Qed.

(** C10: on a signal with at least [filter_window >= 1] samples the filter
    succeeds, keeps the length, and its output at every index [i] is
    [1 / filter_window] times the sum of the samples in the window of
    [filter_window] positions centred at [i], the positions outside the
    signal counting as 0. *)
Theorem filter_zero_padding (s : state) (i : nat) :
  (1 <= filter_window s)%Z ->
  (Z.to_nat (filter_window s) <= length (noisy_signal s))%nat ->
  (i < length (noisy_signal s))%nat ->
  exists out,
    _apply_filter s = inr out /\
    length out = length (noisy_signal s) /\
    nth i out NaN =
    smul (Fin (1 / IZR (filter_window s)))
         (window_sum (noisy_signal s) (filter_window s) i).
Proof.
  intros Hw Hlen Hi.
  rewrite _apply_filter_ok by exact Hw.
  rewrite convolve_same_ok
    by (try (apply kernel_nonempty; exact Hw); rewrite length_kernel; exact Hlen).
  eexists. split; [reflexivity|]. split.
  - now rewrite length_map, length_seq.
  - rewrite (nth_map_seq
               (fun i => np.conv_at (noisy_signal s) (kernel (filter_window s))
                                    (i + (length (kernel (filter_window s)) - 1) / 2)))
      by exact Hi.
    rewrite conv_at_kernel, length_kernel by exact Hw.
    rewrite (ssum_scale (1 / IZR (filter_window s))
                        (fun m => nth m (noisy_signal s) NaN)).
    f_equal. symmetry. apply window_sum_range; assumption.
Qed.

(** ** Further properties: errors, bounds and check boxes *)






(** X3: every sample of the harmonic lies between [-|amplitude|] and
    [|amplitude|]. *)
Theorem harmonic_amplitude_bound (s : state) (i : nat) (ti : R) :
  nth i (t s) NaN = Fin ti ->
  exists y, nth i (_calculate_harmonic s) NaN = Fin y /\
            Rabs y <= Rabs (amplitude s).
Proof.
  intros Hti. eexists. split; [apply nth_calculate_harmonic; exact Hti|].
  rewrite Rabs_mult.
  assert (Hs : Rabs (sin (2 * PI * frequency s * ti + phase s)) <= 1).
  { apply Rabs_le. pose proof (SIN_bound (2 * PI * frequency s * ti + phase s)). lra. }
  pose proof (Rabs_pos (amplitude s)). nra.
Qed.

(** X4: clicking the same check box twice gives back the state exactly. *)
Theorem visibility_toggle_twice (label : string) (s : state) :
  _update_visibility label (_update_visibility label s) = s.
Proof.
  unfold _update_visibility.
  destruct (String.eqb label "Show Noise").
  - destruct s as [a f p m c w tb ps nz ns fs pl [ny nv] fl d g].
    cbn. now rewrite negb_involutive.
  - destruct (String.eqb label "Show Filtered").
    + destruct s as [a f p m c w tb ps nz ns fs pl nl [fy fv] d g].
      cbn. now rewrite negb_involutive.
    + reflexivity.
Qed.

(** ** Further properties: what every reachable state satisfies *)

Lemma _update_inv (s s' : state) :
  _update s = inr s' ->
  exists f,
    _apply_filter (with_noisy (update_parameters s)) = inr f /\
    s' = update_plot (set_filtered_signal f (with_noisy (update_parameters s))).
Proof.
  unfold _update. rewrite recompute_unfold.
  destruct (_apply_filter (with_noisy (update_parameters s))) as [e|f];
    cbn [bind ret]; intros H; [discriminate H|].
  injection H as <-. exists f. split; reflexivity.
Qed.

(** Whatever the state before, a successful [_update] leaves the attributes
    in agreement with one another. *)
Lemma _update_up_to_date (s s' : state) :
  _update s = inr s' -> up_to_date s'.
Proof.
  intros Hu. destruct (_update_inv s s' Hu) as (f & Hf & ->).
  unfold up_to_date. split; [|split].
  - intros k. destruct k; reflexivity.
  - repeat split; reflexivity.
  - split; [reflexivity|]. split; [reflexivity|]. exact Hf.
Qed.

Lemma _update_visibility_up_to_date (label : string) (s : state) :
  up_to_date s -> up_to_date (_update_visibility label s).
Proof.
  intros H. unfold _update_visibility.
  destruct (String.eqb label "Show Noise");
    [|destruct (String.eqb label "Show Filtered")]; exact H.
Qed.

Lemma _reset_inv (s s' : state) :
  _reset s = inr s' ->
  exists s1, for_each Slider_reset slider_keys s = inr s1 /\ _update s1 = inr s'.
Proof.
  unfold _reset. destruct (for_each Slider_reset slider_keys s) as [e|s1];
    cbn [bind]; intros H; [discriminate H|].
  exists s1. split; [reflexivity|exact H].
Qed.

Lemma __init___inv (g : rng) (s : state) :
  __init__ g = inr s ->
  exists f,
    _apply_filter (with_noisy (initial_attributes g)) = inr f /\
    s = _setup_plot (set_filtered_signal f (with_noisy (initial_attributes g))).
Proof.
  unfold __init__. rewrite recompute_unfold.
  destruct (_apply_filter (with_noisy (initial_attributes g))) as [e|f];
    cbn [bind ret]; intros H; [discriminate H|].
  injection H as <-. exists f. split; reflexivity.
Qed.

Lemma reachable_up_to_date (s : state) : reachable s -> up_to_date s.
Proof.
  induction 1 as [g s Hinit|ev s s' _ IH Hstep].
  - destruct (__init___inv g s Hinit) as (f & Hf & ->).
    unfold up_to_date. split; [|split].
    + intros k. destruct k; reflexivity.
    + repeat split; reflexivity.
    + split; [reflexivity|]. split; [reflexivity|]. exact Hf.
  - destruct ev as [k v|label|]; cbn [handle] in Hstep.
    + apply (_update_up_to_date _ _ Hstep).
    + injection Hstep as <-. apply _update_visibility_up_to_date. exact IH.
    + destruct (_reset_inv s s' Hstep) as (s1 & _ & Hu).
      apply (_update_up_to_date _ _ Hu).
Qed.

(** X5: in every reachable state each of the three lines shows the signal
    that is stored for it. *)
Theorem display_shows_signals (s : state) :
  reachable s ->
  ydata (pure_line s) = pure_signal s /\
  ydata (noisy_line s) = noisy_signal s /\
  ydata (filtered_line s) = filtered_signal s.
Proof.
  intros Hr. apply reachable_up_to_date in Hr.
  destruct Hr as (_ & Hy & _). exact Hy.
Qed.

(** X6: in every reachable state the four parameters that have a slider
    equal the values the sliders hold. *)
Theorem parameters_follow_sliders (s : state) :
  reachable s ->
  forall k, get_param k s = val (get_slider k (sliders s)).
Proof.
  intros Hr. apply reachable_up_to_date in Hr.
  destruct Hr as (Hp & _). exact Hp.
Qed.

(** X7: in every reachable state the stored signals are the ones the stored
    parameters give: the pure signal is the harmonic of the current
    amplitude, frequency and phase, the noisy signal is the pure signal plus
    the stored noise, and the filtered signal is the filter's result on the
    stored noisy signal. *)
Theorem stored_signals_consistent (s : state) :
  reachable s ->
  pure_signal s = _calculate_harmonic s /\
  noisy_signal s = np.add (pure_signal s) (noise s) /\
  _apply_filter s = inr (filtered_signal s).
Proof.
  intros Hr. apply reachable_up_to_date in Hr.
  destruct Hr as (_ & _ & Hs). exact Hs.
Qed.

Lemma slider_key_eqb_eq (k k' : slider_key) : slider_key_eqb k k' = true <-> k = k'.
Proof. destruct k, k'; split; intros H; (reflexivity || discriminate H). Qed.

(** X8: in a reachable state, moving the slider under key [k] to [v]
    succeeds, makes [v] the parameter that slider controls and leaves the
    other three slider parameters, the phase, the window and the time base as
    they were. *)
Theorem slider_moved_sets_one_parameter (k : slider_key) (v : R) (s : state) :
  reachable s ->
  exists s',
    handle (slider_moved k v) s = inr s' /\
    get_param k s' = v /\
    (forall k', k' <> k -> get_param k' s' = get_param k' s) /\
    phase s' = phase s /\ filter_window s' = filter_window s /\ t s' = t s.
Proof.
  intros Hr. pose proof (reachable_invariant s Hr) as Hinv.
  pose proof (reachable_up_to_date s Hr) as (Hp & _).
  destruct (Slider_set_val_spec k v s Hinv) as (s' & Hs & Hinv' & Hsl).
  assert (Hp' : forall k0, get_param k0 s' = val (get_slider k0 (sliders s'))).
  { unfold Slider_set_val in Hs. apply _update_up_to_date in Hs. apply Hs. }
  destruct Hinv as (Iph & Iw & It & _). destruct Hinv' as (Iph' & Iw' & It' & _).
  exists s'. split; [exact Hs|]. split; [|split; [|split; [|split]]].
  - rewrite Hp', Hsl, get_put_slider.
    replace (slider_key_eqb k k) with true by (destruct k; reflexivity).
    reflexivity.
  - intros k' Hne. rewrite Hp', Hsl, get_put_slider, Hp.
    destruct (slider_key_eqb k k') eqn:E; [|reflexivity].
    apply slider_key_eqb_eq in E. congruence.
  - congruence.
  - congruence.
  - congruence.
Qed.

(** ** Further properties: nan and flat signals through the filter *)

Lemma map_seq_const (f : nat -> scalar) (c : scalar) (a n : nat) :
  (forall i, (a <= i < a + n)%nat -> f i = c) -> map f (seq a n) = repeat c n.
Proof.
  revert a; induction n as [|n IH]; intros a H; [reflexivity|].
  cbn [seq map repeat]. f_equal.
  - apply H. lia.
  - apply IH. intros i Hi. apply H. lia.
Qed.

Lemma add_nan (a : ndarray) : np.add a (repeat NaN (length a)) = repeat NaN (length a).
Proof.
  induction a as [|x a IH]; [reflexivity|].
  cbn [length repeat np.add]. rewrite IH. destruct x; reflexivity.
Qed.

Lemma nth_repeat_nan (m n : nat) : nth m (repeat NaN n) NaN = NaN.
Proof.
  revert m; induction n as [|n IH]; intros [|m]; try reflexivity. apply IH.
Qed.

Lemma half_le (w : nat) : (1 <= w)%nat -> ((w - 1) / 2 <= w - 1)%nat.
Proof. intros Hw. pose proof (half_split w Hw). lia. Qed.

Lemma current_draw_nan (s : state) :
  noise_covariance s < 0 -> current_draw s = repeat NaN (length (t s)).
Proof.
  intros Hc. unfold current_draw. rewrite ssqrt_negative by exact Hc.
  now rewrite normal_samples_nan, length_gauss_draws.
Qed.

Lemma conv_at_kernel_nan (n : nat) (w : Z) (i : nat) :
  (1 <= w)%Z -> (i < n)%nat ->
  np.conv_at (repeat NaN n) (kernel w) (i + (Z.to_nat w - 1) / 2) = NaN.
Proof.
  intros Hw Hi. rewrite conv_at_kernel by exact Hw. rewrite repeat_length.
  pose proof (half_le (Z.to_nat w) ltac:(lia)) as Hh.
  set (j := (i + (Z.to_nat w - 1) / 2)%nat) in *.
  destruct (Nat.min (j + 1) n - (j + 1 - Z.to_nat w))%nat as [|len] eqn:E.
  - exfalso. subst j. lia.
  - cbn [seq map ssum fold_right]. now rewrite nth_repeat_nan.
Qed.

(** X9: with a negative variance and a window that is not longer than the
    time base, the recompute still succeeds, but every sample of the noise,
    of the noisy signal and of the filtered signal is nan; only the pure
    signal is unaffected. *)
Theorem negative_variance_floods_signals (s : state) :
  noise_covariance s < 0 ->
  (1 <= filter_window s)%Z ->
  (Z.to_nat (filter_window s) <= length (t s))%nat ->
  exists s',
    recompute s = inr s' /\
    pure_signal s' = _calculate_harmonic s /\
    noise s' = repeat NaN (length (t s)) /\
    noisy_signal s' = repeat NaN (length (t s)) /\
    filtered_signal s' = repeat NaN (length (t s)).
Proof.
  intros Hc Hw Hlen.
  assert (Ht : t s <> []) by (apply nonempty_length; lia).
  destruct (recompute_ok s Hw Ht) as [f [Hf Hr]].
  assert (Hn : noisy_signal (with_noisy s) = repeat NaN (length (t s))).
  { change (noisy_signal (with_noisy s))
      with (np.add (_calculate_harmonic s) (current_draw s)).
    rewrite current_draw_nan by exact Hc.
    rewrite <- (length_calculate_harmonic s). apply add_nan. }
  exists (set_filtered_signal f (with_noisy s)).
  split; [exact Hr|]. split; [reflexivity|].
  split; [apply current_draw_nan; exact Hc|]. split; [exact Hn|].
  change (filtered_signal (set_filtered_signal f (with_noisy s))) with f.
  rewrite Hn in Hf.
  rewrite convolve_same_ok in Hf
    by (try (apply kernel_nonempty; exact Hw);
        rewrite length_kernel, repeat_length; exact Hlen).
  injection Hf as <-. rewrite repeat_length, length_kernel.
  apply map_seq_const. intros i Hi. apply conv_at_kernel_nan; [exact Hw|lia].
Qed.

Lemma ssum_const (x : R) (l : list nat) :
  ssum (map (fun _ => Fin x) l) = Fin (INR (length l) * x).
Proof.
  induction l as [|m l IH].
  - cbn. f_equal. ring.
  - cbn [map ssum fold_right length]. fold (ssum (map (fun _ => Fin x) l)).
    rewrite IH, S_INR. cbn [sadd]. f_equal. ring.
Qed.

Lemma _apply_filter_nth (s : state) (i : nat) :
  (1 <= filter_window s)%Z ->
  (Z.to_nat (filter_window s) <= length (noisy_signal s))%nat ->
  (i < length (noisy_signal s))%nat ->
  exists out,
    _apply_filter s = inr out /\ length out = length (noisy_signal s) /\
    nth i out NaN =
    np.conv_at (noisy_signal s) (kernel (filter_window s))
               (i + (Z.to_nat (filter_window s) - 1) / 2).
Proof.
  intros Hw Hlen Hi. rewrite _apply_filter_ok by exact Hw.
  rewrite convolve_same_ok
    by (try (apply kernel_nonempty; exact Hw); rewrite length_kernel; exact Hlen).
  eexists. split; [reflexivity|]. split; [now rewrite length_map, length_seq|].
  rewrite (nth_map_seq
             (fun i => np.conv_at (noisy_signal s) (kernel (filter_window s))
                                  (i + (length (kernel (filter_window s)) - 1) / 2)))
    by exact Hi.
  now rewrite length_kernel.
Qed.

(** X10: away from the ends, where the whole window lies inside the signal,
    the filter returns a flat signal unchanged. *)
Theorem flat_signal_interior (s : state) (c : R) (n i : nat) :
  noisy_signal s = repeat (Fin c) n ->
  (1 <= filter_window s)%Z ->
  (Z.to_nat (filter_window s) / 2 <= i)%nat ->
  (i + (Z.to_nat (filter_window s) - 1) / 2 < n)%nat ->
  exists out, _apply_filter s = inr out /\ nth i out NaN = Fin c.
Proof.
  intros Hflat Hw Hlo Hhi.
  pose proof (half_split (Z.to_nat (filter_window s)) ltac:(lia)) as Hh.
  assert (Hlen : (Z.to_nat (filter_window s) <= n)%nat) by lia.
  assert (Hi : (i < n)%nat) by lia.
  destruct (_apply_filter_nth s i Hw) as (out & Hout & _ & Hnth);
    try (rewrite Hflat, repeat_length; assumption).
  exists out. split; [exact Hout|].
  rewrite Hnth, Hflat, conv_at_kernel, repeat_length by exact Hw.
  replace (Nat.min (i + (Z.to_nat (filter_window s) - 1) / 2 + 1) n
           - (i + (Z.to_nat (filter_window s) - 1) / 2 + 1
              - Z.to_nat (filter_window s)))%nat
    with (Z.to_nat (filter_window s)) by lia.
  rewrite (map_ext_in _ (fun _ => Fin (c * (1 / IZR (filter_window s))))).
  - rewrite ssum_const, length_seq, INR_IZR_INZ, Z2Nat.id by lia.
    f_equal. field. intros Hz. apply eq_IZR_R0 in Hz. lia.
  - intros m Hm. apply in_seq in Hm.
    rewrite nth_repeat_lt by lia. reflexivity.
Qed.

(** ** Further properties: the filter is linear *)

Lemma ssum_add (f g : nat -> scalar) (l : list nat) :
  ssum (map (fun m => sadd (f m) (g m)) l) =
  sadd (ssum (map f l)) (ssum (map g l)).
Proof.
  induction l as [|m l IH].
  - cbn. f_equal. ring.
  - cbn [map ssum fold_right].
    fold (ssum (map (fun m => sadd (f m) (g m)) l)).
    fold (ssum (map f l)). fold (ssum (map g l)). rewrite IH.
    destruct (f m) as [x|], (g m) as [y|], (ssum (map f l)) as [u|],
      (ssum (map g l)) as [v|]; try reflexivity.
    cbn [sadd]. f_equal. ring.
Qed.

Lemma smul_sadd (x y : scalar) (c : R) :
  smul (sadd x y) (Fin c) = sadd (smul x (Fin c)) (smul y (Fin c)).
Proof.
  destruct x as [x|], y as [y|]; try reflexivity. cbn. f_equal. ring.
Qed.

Lemma conv_at_kernel_add (a b : ndarray) (w : Z) (j : nat) :
  (1 <= w)%Z -> length a = length b ->
  np.conv_at (np.add a b) (kernel w) j =
  sadd (np.conv_at a (kernel w) j) (np.conv_at b (kernel w) j).
Proof.
  intros Hw Hlen. rewrite !conv_at_kernel by exact Hw.
  rewrite length_add, <- Hlen, Nat.min_id.
  rewrite <- ssum_add. f_equal. apply map_ext_in. intros m Hm.
  apply in_seq in Hm. rewrite nth_add by lia. apply smul_sadd.
Qed.

Lemma add_map_seq (f g : nat -> scalar) (a n : nat) :
  np.add (map f (seq a n)) (map g (seq a n)) =
  map (fun i => sadd (f i) (g i)) (seq a n).
Proof.
  revert a; induction n as [|n IH]; intros a; [reflexivity|].
  cbn [seq map np.add]. now rewrite IH.
Qed.

(** X11: the filter is linear.  After a recompute with a window that is not
    longer than the time base, the filtered signal is the sum, sample by
    sample, of what the same kernel gives on the pure signal alone and on the
    noise alone. *)
Theorem filtered_is_sum_of_filtered_parts (s : state) :
  (1 <= filter_window s)%Z ->
  (Z.to_nat (filter_window s) <= length (t s))%nat ->
  exists s' fp fn,
    recompute s = inr s' /\
    np.convolve_same (pure_signal s') (kernel (filter_window s)) = inr fp /\
    np.convolve_same (noise s') (kernel (filter_window s)) = inr fn /\
    filtered_signal s' = np.add fp fn.
Proof.
  intros Hw Hlen.
  assert (Ht : t s <> []) by (apply nonempty_length; lia).
  destruct (recompute_ok s Hw Ht) as [f [Hf Hr]].
  assert (Hk : kernel (filter_window s) <> []) by (apply kernel_nonempty; exact Hw).
  pose proof (length_calculate_harmonic s) as Lp.
  pose proof (length_current_draw s) as Ln.
  change (noisy_signal (with_noisy s))
    with (np.add (_calculate_harmonic s) (current_draw s)) in Hf.
  rewrite convolve_same_ok in Hf
    by (try exact Hk; rewrite length_kernel, length_add, Lp, Ln; lia).
  injection Hf as Hf.
  exists (set_filtered_signal f (with_noisy s)).
  eexists. eexists. split; [exact Hr|].
  change (pure_signal (set_filtered_signal f (with_noisy s)))
    with (_calculate_harmonic s).
  change (noise (set_filtered_signal f (with_noisy s))) with (current_draw s).
  change (filtered_signal (set_filtered_signal f (with_noisy s))) with f.
  split; [|split].
  - apply convolve_same_ok; [exact Hk|rewrite length_kernel, Lp; exact Hlen].
  - apply convolve_same_ok; [exact Hk|rewrite length_kernel, Ln; exact Hlen].
  - rewrite <- Hf, length_add, Lp, Ln, Nat.min_id, add_map_seq.
    apply map_ext. intros i. apply conv_at_kernel_add; [exact Hw|congruence].
Qed.

End Visualizer.

Arguments t {rng} s.
Arguments amplitude {rng} s.
Arguments frequency {rng} s.
Arguments phase {rng} s.
Arguments noise_mean {rng} s.
Arguments noise_covariance {rng} s.
Arguments filter_window {rng} s.
Arguments pure_signal {rng} s.
Arguments noise {rng} s.
Arguments noisy_signal {rng} s.
Arguments filtered_signal {rng} s.
Arguments initial_attributes {rng} g.
Arguments set_params {rng} a f m c s.
Arguments set_filter_window {rng} w s.
Arguments set_noisy_signal {rng} v s.
Arguments _apply_filter {rng} s.
Arguments _generate_noise {rng} gauss s.
Arguments recompute {rng} gauss s.
Arguments handle {rng} gauss ev s.
Arguments reachable {rng} gauss s.
Arguments has_defaults {rng} s.

(** ** The model on concrete inputs *)

(** Equality of two explicit arrays of finite samples, entry by entry. *)
Ltac samples_eq :=
  repeat (apply f_equal2; [apply f_equal; try lra; field|]); reflexivity.

(** [np.linspace(0, 1, 3)] is [[0, 0.5, 1]]. *)
Example linspace_three : np.linspace 0 1 3 = [Fin 0; Fin (1 / 2); Fin 1].
Proof.
  rewrite linspace_grid by lia. cbn. samples_eq.
Qed.

(** [np.convolve([1, 2, 3, 4], [1/3, 1/3, 1/3], 'same')] is [[1, 2, 3, 7/3]]. *)
Example convolve_three_taps :
  np.convolve_same [Fin 1; Fin 2; Fin 3; Fin 4] [Fin (1 / 3); Fin (1 / 3); Fin (1 / 3)]
  = inr [Fin 1; Fin 2; Fin 3; Fin (7 / 3)].
Proof.
  cbn. apply (f_equal inr). samples_eq.
Qed.

(** [np.convolve([1, 2, 3, 4], [0.5, 0.5], 'same')] is [[0.5, 1.5, 2.5, 3.5]]. *)
Example convolve_two_taps :
  np.convolve_same [Fin 1; Fin 2; Fin 3; Fin 4] [Fin (1 / 2); Fin (1 / 2)]
  = inr [Fin (1 / 2); Fin (3 / 2); Fin (5 / 2); Fin (7 / 2)].
Proof.
  cbn. apply (f_equal inr). samples_eq.
Qed.

(** A kernel longer than the signal: the operands are swapped and the result
    has the length of the kernel. *)
Example convolve_long_kernel :
  np.convolve_same [Fin 1] [Fin (1 / 3); Fin (1 / 3); Fin (1 / 3)]
  = inr [Fin (1 / 3); Fin (1 / 3); Fin (1 / 3)].
Proof.
  cbn. apply (f_equal inr). samples_eq.
Qed.

(** ** The theorems at concrete states *)

Lemma initial_time_base_nonempty : t (initial_attributes 0%nat) <> [].
Proof.
  intros H. apply (f_equal (@length scalar)) in H.
  cbn [t initial_attributes] in H. rewrite length_linspace in H. discriminate H.
Defined.

(** C1 at the startup parameters. *)
Lemma recompute_signals_witness :
  (1 <= filter_window (initial_attributes 0%nat))%Z /\
  t (initial_attributes 0%nat) <> [] /\
  exists s',
    recompute counter_gauss (initial_attributes 0%nat) = inr s' /\
    noisy_signal s' = np.add (pure_signal s') (noise s') /\
    _apply_filter s' = inr (filtered_signal s').
Proof.
  assert (Hw : (1 <= filter_window (initial_attributes 0%nat))%Z)
    by (cbn [filter_window initial_attributes]; lia).
  split; [exact Hw|]. split; [exact initial_time_base_nonempty|].
  destruct (recompute_signals nat counter_gauss (initial_attributes 0%nat)
                              Hw initial_time_base_nonempty)
    as (s' & Hr & _ & _ & Hn & _ & Hf & _).
  exists s'. split; [exact Hr|]. split; [exact Hn|exact Hf].
Defined.



(** C4 on a signal of two samples. *)
Lemma filter_window_one_identity_witness :
  _apply_filter (set_noisy_signal [Fin 1; Fin 2]
                   (set_filter_window 1 (initial_attributes 0%nat)))
  = inr [Fin 1; Fin 2].
Proof.
  apply (filter_window_one_identity nat
           (set_noisy_signal [Fin 1; Fin 2]
              (set_filter_window 1 (initial_attributes 0%nat)))).
  - reflexivity.
  - discriminate.
Defined.

(** C4 as stated fails on the empty signal: [np.convolve] swaps the operands
    and then rejects the empty one. *)
Lemma filter_window_one_empty_signal :
  _apply_filter (set_noisy_signal []
                   (set_filter_window 1 (initial_attributes 0%nat)))
  = inl (ValueError "v cannot be empty") /\
  _apply_filter (set_noisy_signal []
                   (set_filter_window 1 (initial_attributes 0%nat)))
  <> inr [].
Proof.
  assert (H : _apply_filter (set_noisy_signal []
                               (set_filter_window 1 (initial_attributes 0%nat)))
              = inl (ValueError "v cannot be empty")) by reflexivity.
  split; [exact H|]. rewrite H. discriminate.
Qed.

(** C5 with [filter_window = 0]. *)
Lemma filter_window_below_one_raises_witness :
  raises (_apply_filter (set_filter_window 0 (initial_attributes 0%nat))).
Proof.
  apply (filter_window_below_one_raises nat
           (set_filter_window 0 (initial_attributes 0%nat))).
  cbn [filter_window set_filter_window]. lia.
Defined.

(** C6 with [noise_covariance = -1]. *)
Lemma negative_variance_gives_nan_witness :
  ~ raises (_generate_noise counter_gauss
              (set_params 1 1 0 (-1) (initial_attributes 0%nat))).
Proof.
  apply (negative_variance_gives_nan nat counter_gauss
           (set_params 1 1 0 (-1) (initial_attributes 0%nat))).
  cbn [noise_covariance set_params]. lra.
Defined.

(** C6 as stated fails: with [noise_covariance = -1] the noise source returns
    samples instead of raising. *)
Lemma negative_variance_does_not_raise :
  (exists nz g',
     _generate_noise counter_gauss
       (set_params 1 1 0 (-1) (initial_attributes 0%nat)) = inr (nz, g')) /\
  ~ raises (_generate_noise counter_gauss
              (set_params 1 1 0 (-1) (initial_attributes 0%nat))).
Proof.
  pose proof (_generate_noise_ok nat counter_gauss
                (set_params 1 1 0 (-1) (initial_attributes 0%nat))) as H.
  split.
  - eexists. eexists. exact H.
  - intros [e He]. rewrite H in He. discriminate He.
Qed.

(** C7 with [noise_covariance = 0] and [noise_mean = 0]. *)
Lemma zero_variance_noisy_witness :
  exists s',
    recompute counter_gauss (set_params 1 1 0 0 (initial_attributes 0%nat)) = inr s' /\
    noisy_signal s' = pure_signal s'.
Proof.
  destruct (zero_variance_noisy nat counter_gauss
              (set_params 1 1 0 0 (initial_attributes 0%nat)))
    as (s' & Hr & _ & Heq).
  - reflexivity.
  - cbn [filter_window set_params initial_attributes]. lia.
  - exact initial_time_base_nonempty.
  - exists s'. split; [exact Hr|]. apply Heq. reflexivity.
Defined.

(** C7 as stated fails when the mean is not zero: with [noise_covariance = 0]
    and [noise_mean = 1] the noisy signal is the pure signal shifted by 1. *)
Lemma zero_variance_nonzero_mean :
  exists s',
    recompute counter_gauss (set_params 1 1 1 0 (initial_attributes 0%nat)) = inr s' /\
    nth 0 (noisy_signal s') NaN = sadd (nth 0 (pure_signal s') NaN) (Fin 1) /\
    noisy_signal s' <> pure_signal s'.
Proof.
  set (s := set_params 1 1 1 0 (initial_attributes 0%nat)).
  destruct (recompute_ok nat counter_gauss s) as [f [_ Hr]].
  - unfold s. cbn [filter_window set_params initial_attributes]. lia.
  - exact initial_time_base_nonempty.
  - exists (set_filtered_signal nat f (with_noisy nat counter_gauss s)).
    split; [exact Hr|].
    change (noisy_signal (set_filtered_signal nat f (with_noisy nat counter_gauss s)))
      with (noisy_signal (with_noisy nat counter_gauss s)).
    change (pure_signal (set_filtered_signal nat f (with_noisy nat counter_gauss s)))
      with (_calculate_harmonic nat s).
    rewrite noisy_zero_variance by reflexivity.
    change (noise_mean s) with 1.
    assert (Hp : exists x, nth 0 (_calculate_harmonic nat s) NaN = Fin x).
    { eexists. apply nth_calculate_harmonic.
      change (t s) with (np.linspace 0 10 1000). apply nth_time_base. lia. }
    destruct Hp as [x Hx].
    assert (Hshift : nth 0 (map (fun p => sadd p (Fin 1)) (_calculate_harmonic nat s)) NaN
                     = sadd (nth 0 (_calculate_harmonic nat s) NaN) (Fin 1)).
    { change NaN with ((fun p => sadd p (Fin 1)) NaN) at 1.
      now rewrite map_nth. }
    split; [exact Hshift|].
    intros Heq. rewrite Heq, Hx in Hshift. cbn [sadd] in Hshift.
    injection Hshift as Hshift. lra.
Qed.

(** C8 after the amplitude slider has been moved to 2.5. *)
Lemma reset_restores_defaults_witness :
  exists s,
    reachable counter_gauss s /\
    exists s', handle counter_gauss reset_clicked s = inr s' /\ has_defaults s'.
Proof.
  destruct (__init___spec nat counter_gauss 0%nat) as (s0 & H0 & Hinv & _).
  destruct (Slider_set_val_spec nat counter_gauss k_amplitude 2.5 s0 Hinv)
    as (s1 & H1 & _).
  assert (Hreach : reachable counter_gauss s1).
  { apply reach_step with (ev := slider_moved k_amplitude 2.5) (s := s0).
    - apply reach_init with (g := 0%nat). exact H0.
    - exact H1. }
  exists s1. split; [exact Hreach|].
  exact (reset_restores_defaults nat counter_gauss s1 Hreach).
Defined.

(** C10 on four samples with a window of three, at the last index. *)
Lemma filter_zero_padding_witness :
  exists out,
    _apply_filter (set_noisy_signal [Fin 1; Fin 2; Fin 3; Fin 4]
                     (set_filter_window 3 (initial_attributes 0%nat))) = inr out /\
    length out = 4%nat /\
    nth 3 out NaN =
    smul (Fin (1 / 3)) (window_sum [Fin 1; Fin 2; Fin 3; Fin 4] 3 3).
Proof.
  apply (filter_zero_padding nat
           (set_noisy_signal [Fin 1; Fin 2; Fin 3; Fin 4]
              (set_filter_window 3 (initial_attributes 0%nat))) 3).
  - cbn [filter_window set_noisy_signal set_filter_window]. lia.
  - cbn. lia.
  - cbn. lia.
Defined.

(** The window of the last witness holds 3, 4 and one padded zero. *)
Example window_sum_at_the_edge :
  window_sum [Fin 1; Fin 2; Fin 3; Fin 4] 3 3 = Fin 7.
Proof.
  vm_compute. apply f_equal. lra.
Qed.

Arguments sliders {rng} s.
Arguments _calculate_harmonic {rng} s.
Arguments get_param {rng} k s.
Arguments pure_line {rng} s.
Arguments noisy_line {rng} s.
Arguments filtered_line {rng} s.

(** ** The further properties at concrete states *)

(** The state after startup, with the counter as generator. *)
Lemma startup_reachable :
  exists s, reachable counter_gauss s /\ has_defaults s.
Proof.
  destruct (__init___spec nat counter_gauss 0%nat) as (s & Hs & _ & Hd).
  exists s. split; [apply reach_init with (g := 0%nat); exact Hs|exact Hd].
Defined.

Lemma harmonic_amplitude_bound_witness :
  exists y,
    nth 0 (_calculate_harmonic (initial_attributes 0%nat)) NaN = Fin y /\
    Rabs y <= Rabs (amplitude (initial_attributes 0%nat)).
Proof.
  apply (harmonic_amplitude_bound nat (initial_attributes 0%nat) 0
                                  (INR 0 * (10 / 999))).
  apply nth_time_base. lia.
Defined.

Lemma display_shows_signals_witness :
  exists s,
    reachable counter_gauss s /\
    ydata (pure_line s) = pure_signal s /\
    ydata (noisy_line s) = noisy_signal s /\
    ydata (filtered_line s) = filtered_signal s.
Proof.
  destruct startup_reachable as (s & Hr & _).
  exists s. split; [exact Hr|].
  exact (display_shows_signals nat counter_gauss s Hr).
Defined.

Lemma parameters_follow_sliders_witness :
  exists s,
    reachable counter_gauss s /\
    forall k, get_param k s = val (get_slider k (sliders s)).
Proof.
  destruct startup_reachable as (s & Hr & _).
  exists s. split; [exact Hr|].
  exact (parameters_follow_sliders nat counter_gauss s Hr).
Defined.

Lemma stored_signals_consistent_witness :
  exists s,
    reachable counter_gauss s /\
    pure_signal s = _calculate_harmonic s /\
    noisy_signal s = np.add (pure_signal s) (noise s) /\
    _apply_filter s = inr (filtered_signal s).
Proof.
  destruct startup_reachable as (s & Hr & _).
  exists s. split; [exact Hr|].
  exact (stored_signals_consistent nat counter_gauss s Hr).
Defined.

Lemma slider_moved_sets_one_parameter_witness :
  exists s s',
    reachable counter_gauss s /\
    handle counter_gauss (slider_moved k_frequency 2.5) s = inr s' /\
    frequency s' = 2.5 /\ amplitude s' = amplitude s.
Proof.
  destruct startup_reachable as (s & Hr & _).
  destruct (slider_moved_sets_one_parameter nat counter_gauss k_frequency 2.5 s Hr)
    as (s' & Hs & Hk & Ho & _).
  exists s, s'. split; [exact Hr|]. split; [exact Hs|]. split; [exact Hk|].
  apply (Ho k_amplitude). discriminate.
Defined.

Lemma negative_variance_floods_signals_witness :
  exists s',
    recompute counter_gauss (set_params 1 1 0 (-1) (initial_attributes 0%nat)) = inr s' /\
    noisy_signal s' = repeat NaN 1000 /\
    filtered_signal s' = repeat NaN 1000.
Proof.
  destruct (negative_variance_floods_signals nat counter_gauss
              (set_params 1 1 0 (-1) (initial_attributes 0%nat)))
    as (s' & Hr & _ & _ & Hn & Hf).
  - cbn [noise_covariance set_params]. lra.
  - cbn [filter_window set_params initial_attributes]. lia.
  - cbn [t filter_window set_params initial_attributes].
    rewrite length_linspace. lia.
  - cbn [t set_params initial_attributes] in Hn, Hf.
    rewrite length_linspace in Hn, Hf.
    exists s'. split; [exact Hr|]. split; [exact Hn|exact Hf].
Defined.

Lemma flat_signal_interior_witness :
  exists out,
    _apply_filter (set_noisy_signal (repeat (Fin 2) 4)
                     (set_filter_window 2 (initial_attributes 0%nat))) = inr out /\
    nth 1 out NaN = Fin 2.
Proof.
  apply (flat_signal_interior nat
           (set_noisy_signal (repeat (Fin 2) 4)
              (set_filter_window 2 (initial_attributes 0%nat))) 2 4 1).
  - reflexivity.
  - cbn [filter_window set_noisy_signal set_filter_window]. lia.
  - cbn [filter_window set_noisy_signal set_filter_window].
    change (Z.to_nat 2 / 2)%nat with 1%nat. lia.
  - cbn [filter_window set_noisy_signal set_filter_window].
    change ((Z.to_nat 2 - 1) / 2)%nat with 0%nat. lia.
Defined.

Lemma filtered_is_sum_of_filtered_parts_witness :
  exists s' fp fn,
    recompute counter_gauss (initial_attributes 0%nat) = inr s' /\
    np.convolve_same (pure_signal s')
                     (kernel (filter_window (initial_attributes 0%nat))) = inr fp /\
    np.convolve_same (noise s')
                     (kernel (filter_window (initial_attributes 0%nat))) = inr fn /\
    filtered_signal s' = np.add fp fn.
Proof.
  apply (filtered_is_sum_of_filtered_parts nat counter_gauss
                                           (initial_attributes 0%nat)).
  - cbn [filter_window initial_attributes]. lia.
  - cbn [t filter_window initial_attributes]. rewrite length_linspace. lia.
Defined.
